(** * httprouter: path cleaning, parameters, the router and its route tree

    A shallow embedding of [path.go] ([CleanPath], [bufApp]) and of
    [router.go] ([Params.ByName], [Router.Handle] and its shortcuts,
    [Router.Lookup]), a model of the route tree that the router works on,
    and the properties that the design document states about them.

    Conventions.
    - A Go [string] is a sequence of bytes.  The byte-level code works on
      [list ascii]; the exported functions take and return [string].
    - Go [int] indices are natural numbers here: [r] and [w] start at 0 or
      1, are only ever incremented, and [w--] is guarded by [w > 1].
    - A Go run-time panic (index out of range, explicit [panic]) is the
      outcome [Panic]; a loop that is cut off by its iteration budget is
      the outcome [Timeout].  Every theorem about a function that returns
      shows the outcome [Ok]. *)

From Stdlib Require Import Ascii String.
From stdpp Require Import base option list strings gmap.

Local Open Scope char_scope.

(** ** Outcomes of a Go call *)

Inductive outcome (A : Type) : Type :=
  | Ok (a : A)
  | Panic (msg : string)
  | Timeout.
Arguments Ok {A} a.
Arguments Panic {A} msg.
Arguments Timeout {A}.

Definition obind {A B} (m : outcome A) (f : A -> outcome B) : outcome B :=
  match m with
  | Ok a => f a
  | Panic s => Panic s
  | Timeout => Timeout
  end.

Notation "'do' x <- m ; k" := (obind m (fun x => k))
  (at level 10, x pattern, m at level 100, k at level 200).

Definition outcome_map {A B} (f : A -> B) (m : outcome A) : outcome B :=
  do a <- m; Ok (f a).

(** ** Byte strings *)

Abbreviation bytes := (list ascii).

Definition oob : string := "runtime error: index out of range".

(** [s[i]] with Go's bounds check. *)
Definition index (s : bytes) (i : nat) : outcome ascii :=
  match s !! i with
  | Some c => Ok c
  | None => Panic oob
  end.

(** [b[i] = c] with Go's bounds check. *)
Definition store (b : bytes) (i : nat) (c : ascii) : outcome bytes :=
  if decide (i < length b) then Ok (<[i:=c]> b) else Panic oob.

(** [make([]byte, k)] *)
Definition make (k : nat) : bytes := replicate k zero.

(** [s[:w]] with Go's bounds check. *)
Definition slice_to (s : bytes) (w : nat) : outcome bytes :=
  if decide (w ≤ length s) then Ok (take w s) else Panic oob.

(** ** path.go *)

(** [bufApp]: the buffer is allocated lazily; while it is [nil] ([None])
    the output so far is a prefix of the input [s]. *)
Definition bufApp (buf : option bytes) (s : bytes) (w : nat) (c : ascii)
  : outcome (option bytes) :=
  match buf with
  | None =>
      do x <- index s w;
      if Ascii.eqb x c then Ok None
      else
        (* allocate len(s) bytes and copy s[:w] into them *)
        let b := take w s ++ drop w (make (length s)) in
        outcome_map Some (store b w c)
  | Some b => outcome_map Some (store b w c)
  end.

(** The two backtracking loops [for w > 1 && src[w] != '/' { w-- }];
    [src] is [p] when no buffer has been allocated and [buf] otherwise. *)
Fixpoint backtrack (src : bytes) (w : nat) : outcome nat :=
  match w with
  | S (S _ as w') =>
      do c <- index src w;
      if Ascii.eqb c "/" then Ok w else backtrack src w'
  | _ => Ok w
  end.

(** Local variables of [CleanPath] that the main loop updates. *)
Record cp_state := CpState {
  cp_buf : option bytes;
  cp_r : nat;
  cp_w : nat;
  cp_trailing : bool
}.

(** The element-copy loop [for r < n && p[r] != '/' { ... }];
    [k] bounds the number of iterations. *)
Fixpoint copy_element (k : nat) (p : bytes) (n : nat)
    (buf : option bytes) (r w : nat) : outcome (option bytes * nat * nat) :=
  if decide (r < n) then
    do c <- index p r;
    if negb (Ascii.eqb c "/") then
      match k with
      | 0 => Timeout
      | S k' =>
          do buf' <- bufApp buf p w c;
          copy_element k' p n buf' (r + 1) (w + 1)
      end
    else Ok (buf, r, w)
  else Ok (buf, r, w).

(** One pass through the body of the main loop (the [switch]). *)
Definition clean_step (p : bytes) (n : nat) (st : cp_state) : outcome cp_state :=
  let '(CpState buf r w trailing) := st in
  do c0 <- index p r;
  if Ascii.eqb c0 "/" then
    Ok (CpState buf (r + 1) w trailing)
  else if Ascii.eqb c0 "." && bool_decide (r + 1 = n) then
    Ok (CpState buf (r + 1) w true)
  else
    do is_dot_slash <-
      (if Ascii.eqb c0 "." then
         do c1 <- index p (r + 1); Ok (Ascii.eqb c1 "/")
       else Ok false);
    if is_dot_slash then
      Ok (CpState buf (r + 2) w trailing)
    else
      do is_dotdot <-
        (if Ascii.eqb c0 "." then
           do c1 <- index p (r + 1);
           if Ascii.eqb c1 "." then
             if bool_decide (r + 2 = n) then Ok true
             else do c2 <- index p (r + 2); Ok (Ascii.eqb c2 "/")
           else Ok false
         else Ok false);
      if is_dotdot then
        do w' <-
          (if decide (1 < w) then
             match buf with
             | None => backtrack p (w - 1)
             | Some b => backtrack b (w - 1)
             end
           else Ok w);
        Ok (CpState buf (r + 3) w' trailing)
      else
        do (buf1, w1) <-
          (if decide (1 < w) then
             do b <- bufApp buf p w "/"; Ok (b, w + 1)
           else Ok (buf, w));
        do (buf2, r2, w2) <- copy_element (n - r) p n buf1 r w1;
        Ok (CpState buf2 r2 w2 trailing).

(** The main loop [for r < n { switch ... }]. *)
Fixpoint clean_loop (fuel : nat) (p : bytes) (n : nat) (st : cp_state)
  : outcome cp_state :=
  if decide (cp_r st < n) then
    match fuel with
    | 0 => Timeout
    | S fuel' => do st' <- clean_step p n st; clean_loop fuel' p n st'
    end
  else Ok st.

(** [CleanPath] on bytes.  Every pass of the main loop advances [r], so
    [n] passes are enough; the theorems below show that the budget is
    never exhausted. *)
Definition CleanPath_bytes (p : bytes) : outcome bytes :=
  match p with
  | [] => Ok ["/"]
  | c :: _ =>
      let n := length p in
      let '(buf, r) :=
        if negb (Ascii.eqb c "/")
        then (Some (<[0:="/"]> (make (n + 1))), 0)
        else (None, 1) in
      let trailing := bool_decide (1 < n) && bool_decide (p !! (n - 1) = Some "/") in
      do st <- clean_loop n p n (CpState buf r 1 trailing);
      let '(CpState buf r w trailing) := st in
      do (buf, w) <-
        (if trailing && bool_decide (1 < w) then
           do b <- bufApp buf p w "/"; Ok (b, w + 1)
         else Ok (buf, w));
      match buf with
      | None => slice_to p w
      | Some b => slice_to b w
      end
  end.

Definition CleanPath (p : string) : outcome string :=
  outcome_map string_of_list_ascii (CleanPath_bytes (list_ascii_of_string p)).

(** ** router.go: parameters *)

Record Param := { Key : string; Value : string }.

Abbreviation Params := (list Param).

(** [ByName]: the [for i := range ps] loop returns at the first match. *)
Fixpoint ByName (ps : Params) (name : string) : string :=
  match ps with
  | [] => EmptyString
  | p :: ps' => if String.eqb (Key p) name then Value p else ByName ps' name
  end.

(** ** router.go: registration and lookup *)

Section Router.
(** The prefix tree lives in another file of the package; the router
    only needs a fresh node, [addRoute] and [getValue]. *)
Context {handle node : Type}.
Variable new_node : node.
Variable addRoute : node → bytes → handle → outcome node.
Variable getValue : node → bytes → option handle * Params * bool.

Record Router := {
  trees : gmap string node;
  RedirectTrailingSlash : bool;
  RedirectFixedPath : bool;
  HandleMethodNotAllowed : bool;
  HandleOPTIONS : bool
}.

Definition New : Router :=
  {| trees := ∅;
     RedirectTrailingSlash := true;
     RedirectFixedPath := true;
     HandleMethodNotAllowed := true;
     HandleOPTIONS := true |}.

Definition set_tree (r : Router) (method : string) (root : node) : Router :=
  {| trees := <[method := root]> (trees r);
     RedirectTrailingSlash := RedirectTrailingSlash r;
     RedirectFixedPath := RedirectFixedPath r;
     HandleMethodNotAllowed := HandleMethodNotAllowed r;
     HandleOPTIONS := HandleOPTIONS r |}.

(** [Handle]: [path[0]] is read first (an empty path is an index panic),
    then the tree of the method is fetched or created and the route is
    added to it.  A panic ends the call without a router; what it leaves
    behind in the map is not modelled. *)
Definition Handle (r : Router) (method path : string) (h : handle)
  : outcome Router :=
  do c <- index (list_ascii_of_string path) 0;
  if negb (Ascii.eqb c "/") then
    Panic ("path must begin with '/' in path '" ++ path ++ "'")
  else
    let root := default new_node (trees r !! method) in
    do root' <- addRoute root (list_ascii_of_string path) h;
    Ok (set_tree r method root').

Definition GET r path h := Handle r "GET" path h.
Definition HEAD r path h := Handle r "HEAD" path h.
Definition OPTIONS r path h := Handle r "OPTIONS" path h.
Definition POST r path h := Handle r "POST" path h.
Definition PUT r path h := Handle r "PUT" path h.
Definition PATCH r path h := Handle r "PATCH" path h.
Definition DELETE r path h := Handle r "DELETE" path h.

Definition Lookup (r : Router) (method path : string)
  : option handle * Params * bool :=
  match trees r !! method with
  | Some root => getValue root (list_ascii_of_string path)
  | None => (None, [], false)
  end.
End Router.

Arguments Router : clear implicits.

Definition begins_with_slash (path : string) : Prop :=
  String.get 0 path = Some "/".

(** ** The route tree

    The file of the package that holds the prefix tree ([node], its
    [addRoute] and its [getValue]) is not among the sources.  The tree is
    modelled from the design document: the data model of its section 3,
    insertion as in section 4.2 and lookup as in section 4.3.  Where the
    document leaves a choice open the model takes the plain one:
    - a segment is a parameter or a catch-all exactly when it starts with
      [:] or [*] right after a slash; elsewhere these bytes are static text;
    - a wildcard node hangs under the static node whose prefix ends with
      the slash in front of it, and holds [:name] or [*name] as prefix; a
      catch-all returns the slash with what it consumes;
    - the root is the empty node that [Router.Handle] creates and keeps the
      empty prefix. *)

(** Modelled from the spec: "kind: one of static, parameter, catch-all". *)
Inductive kind := static | parameter | catch_all.

Global Instance kind_eq_dec : EqDecision kind.
Proof. solve_decision. Defined.

Section RouteTree.
Context {handle : Type}.

Unset Elimination Schemes.
(** Modelled from the spec: the node of section 3 with its six attributes. *)
Inductive node : Type :=
  Node {
    prefix : bytes;
    nkind : kind;
    children : list node;
    hasWildcardChild : bool;
    handler : option handle;
    registeredCount : nat
  }.
Set Elimination Schemes.

(** [new(node)]: every field has its zero value. *)
Definition new_node : node := Node [] static [] false None 0.

(** The bytes that start a parameter or a catch-all segment. *)
Definition wild_start (c : ascii) : bool := Ascii.eqb c ":" || Ascii.eqb c "*".

(** Length of the longest common prefix. *)
Fixpoint lcp (a b : bytes) : nat :=
  match a, b with
  | x :: a', y :: b' => if Ascii.eqb x y then S (lcp a' b') else 0
  | _, _ => 0
  end.

(** The bytes of [s] up to the next ['/'] or the end. *)
Fixpoint segment (s : bytes) : bytes :=
  match s with
  | [] => []
  | c :: s' => if Ascii.eqb c "/" then [] else c :: segment s'
  end.

(** Is the position after [s] a segment boundary, when the position
    before [s] is one exactly if [b]? *)
Definition boundary_after (b : bool) (s : bytes) : bool :=
  match last s with
  | Some c => Ascii.eqb c "/"
  | None => b
  end.

(** The first [:] or [*] of [s] that stands at a segment boundary:
    the text before it, the byte itself and the text after it. *)
Fixpoint split_wild (b : bool) (s : bytes) : option (bytes * ascii * bytes) :=
  match s with
  | [] => None
  | c :: s' =>
      if b && wild_start c then Some ([], c, s')
      else match split_wild (Ascii.eqb c "/") s' with
           | Some (st, w, r) => Some (c :: st, w, r)
           | None => None
           end
  end.

Definition conflict_wildcard : string :=
  "wildcard conflicts with an existing route at this position".
Definition conflict_static : string :=
  "wildcard and static segment at the same position".
Definition conflict_catch_all : string :=
  "catch-all is only allowed at the end of the path".
Definition conflict_duplicate : string :=
  "a handler is already registered for this path".

(** Modelled from the spec: the node for a wildcard segment of a new
    path (the file with the tree is not among the sources).  "When a [:]
    or [*] is encountered at a segment boundary, materialize a parameter or
    catch-all node"; a catch-all that is not the last segment is an error.
    [w] is the [:] or [*], [r] the path after it, and [more] builds the
    chain for what follows a parameter segment. *)
Definition wildcard_node (more : bytes → outcome node) (w : ascii) (r : bytes)
    (h : handle) : outcome node :=
  let name := segment r in
  let rest := drop (length name) r in
  if Ascii.eqb w "*" then
    match rest with
    | [] => Ok (Node (w :: name) catch_all [] false (Some h) 1)
    | _ => Panic conflict_catch_all
    end
  else
    match rest with
    | [] => Ok (Node (w :: name) parameter [] false (Some h) 1)
    | _ => do child <- more rest;
           Ok (Node (w :: name) parameter [child] false None 1)
    end.

(** Modelled from the spec: the static text in front of a wildcard node,
    if there is any, becomes a node whose single child is the wildcard. *)
Definition wrap_static (text : bytes) (wc : node) : node :=
  match text with
  | [] => wc
  | _ => Node text static [wc] true None 1
  end.

(** Modelled from the spec: the node chain for the part of a new path
    that no existing node covers: "append a new child holding the
    remainder".  [b] says whether [path] starts at a segment boundary;
    [fuel] bounds the number of parameter nodes. *)
Fixpoint insertChild (fuel : nat) (b : bool) (path : bytes) (h : handle)
  : outcome node :=
  match split_wild b path with
  | None => Ok (Node path static [] false (Some h) 1)
  | Some (text, w, r) =>
      do wc <- wildcard_node
                 (λ rest, match fuel with
                          | 0 => Timeout
                          | S fuel' => insertChild fuel' false rest h
                          end) w r h;
      Ok (wrap_static text wc)
  end.

(** Modelled from the spec: "siblings are kept sorted by descending
    [registeredCount], ties broken by insertion order (stable sort)". *)
Fixpoint insert_sorted (c : node) (l : list node) : list node :=
  match l with
  | [] => [c]
  | d :: l' =>
      if Nat.leb (registeredCount d) (registeredCount c) then c :: d :: l'
      else d :: insert_sorted c l'
  end.

Definition reorder (l : list node) : list node := foldr insert_sorted [] l.

(** Modelled from the spec: "descend into the child whose first character
    matches the next character of [path]; if no such child exists, append
    a new child holding the remainder". *)
Definition update_child (descend : node → outcome node) (fresh : outcome node)
    (c : ascii) : list node → outcome (list node) :=
  fix go (cs : list node) : outcome (list node) :=
    match cs with
    | [] => do child <- fresh; Ok [child]
    | ch :: cs' =>
        if bool_decide (head (prefix ch) = Some c)
        then do ch' <- descend ch; Ok (ch' :: cs')
        else do cs'' <- go cs'; Ok (ch :: cs'')
    end.

(** Modelled from the spec (section 4.2, steps 1 to 6): insertion into
    the subtree at [n], where [path] is the part of the route not yet
    consumed and [b] says whether it starts at a segment boundary. *)
Fixpoint addRoute_at (n : node) (b : bool) (path : bytes) (h : handle)
  : outcome node :=
  let '(Node pre k cs wild hd cnt) := n in
  let i := lcp path pre in
  let rest := drop i path in
  if decide (i < length pre) then
    (* step 2: the common prefix is shorter than the node's prefix *)
    match k with
    | static =>
        let demoted := Node (drop i pre) static cs wild hd cnt in
        let b1 := boundary_after b (take i pre) in
        match rest with
        | [] => Ok (Node (take i pre) static [demoted] false (Some h) (cnt + 1))
        | c :: _ =>
            if b1 && wild_start c then Panic conflict_static
            else
              do child <- insertChild (length rest) b1 rest h;
              Ok (Node (take i pre) static (reorder [demoted; child])
                    false None (cnt + 1))
        end
    | _ => Panic conflict_wildcard
    end
  else
    match rest with
    | [] =>
        (* step 5: the terminal node *)
        match hd with
        | Some _ => Panic conflict_duplicate
        | None => Ok (Node pre k cs wild (Some h) (cnt + 1))
        end
    | c :: _ =>
        match k with
        | catch_all =>
            Panic (if Ascii.eqb c "/" then conflict_catch_all else conflict_wildcard)
        | _ =>
            if bool_decide (k = parameter) && negb (Ascii.eqb c "/")
            then Panic conflict_wildcard
            else
              let b' := boundary_after b pre in
              if wild then
                match cs with
                | child :: cs' =>
                    do child' <- addRoute_at child b' rest h;
                    Ok (Node pre k (child' :: cs') true hd (cnt + 1))
                | [] => Panic oob
                end
              else if b' && wild_start c then
                (* step 4: a wildcard child *)
                match cs with
                | [] =>
                    do child <- insertChild (length rest) b' rest h;
                    Ok (Node pre k [child] true hd (cnt + 1))
                | _ => Panic conflict_static
                end
              else
                (* step 3 *)
                do cs' <- update_child (λ ch, addRoute_at ch b' rest h)
                            (insertChild (length rest) b' rest h) c cs;
                Ok (Node pre k (reorder cs') false hd (cnt + 1))
        end
    end.

(** Modelled from the spec: [insert(path, handler)] on the root of a tree;
    the start of the path is not behind a slash. *)
Definition addRoute (root : node) (path : bytes) (h : handle) : outcome node :=
  addRoute_at root false path h.

(** [strip_prefix pre s]: what is left of [s] after [pre], if [s] starts
    with [pre]. *)
Fixpoint strip_prefix (pre s : bytes) : option bytes :=
  match pre, s with
  | [] , _ => Some s
  | x :: pre', y :: s' => if Ascii.eqb x y then strip_prefix pre' s' else None
  | _ :: _, [] => None
  end.

Definition param (name value : bytes) : Param :=
  {| Key := string_of_list_ascii name; Value := string_of_list_ascii value |}.

(** Modelled from the spec: depth-first descent over the children; the
    first child under which a handler is found wins, a failed child is
    left and the next sibling is tried. *)
Definition first_match (look : node → option handle * Params * bool)
    (tsr_none : bool) : list node → option handle * Params * bool :=
  fix go (cs : list node) : option handle * Params * bool :=
    match cs with
    | [] => (None, [], tsr_none)
    | ch :: cs' =>
        match look ch with
        | (Some h, ps, _) => (Some h, ps, false)
        | (None, _, tsr) =>
            match go cs' with
            | (Some h, ps, _) => (Some h, ps, false)
            | (None, _, tsr') => (None, [], tsr || tsr')
            end
        end
    end.

(** Modelled from the spec: would the node match if nothing were left of
    the path?  It carries a handler, or its child is a catch-all (which
    also matches nothing, "the catch-all-root special case"). *)
Definition terminal (hd : option handle) (cs : list node) : bool :=
  bool_decide (is_Some hd) || existsb (λ ch, bool_decide (nkind ch = catch_all)) cs.

(** Modelled from the spec (section 4.3): lookup below [n] for the part
    of the request path not yet consumed.  The third component recommends
    a redirect: the path and a match differ by one trailing slash. *)
Fixpoint getValue (n : node) (path : bytes) : option handle * Params * bool :=
  let '(Node pre k cs wild hd cnt) := n in
  match k with
  | static =>
      match strip_prefix pre path with
      | Some rest =>
          match rest, hd with
          | [], Some h => (Some h, [], false)
          | _, _ =>
              first_match (λ ch, getValue ch rest)
                (bool_decide (rest = ["/"]) && bool_decide (is_Some hd)) cs
          end
      | None => (None, [], bool_decide (path ++ ["/"] = pre) && terminal hd cs)
      end
  | parameter =>
      let value := segment path in
      let rest := drop (length value) path in
      match value with
      | [] => (None, [], false)
      | _ =>
          let p := param (drop 1 pre) value in
          match rest, hd with
          | [], Some h => (Some h, [p], false)
          | _, _ =>
              let '(h', ps, tsr) :=
                first_match (λ ch, getValue ch rest)
                  (bool_decide (rest = ["/"]) && bool_decide (is_Some hd)) cs in
              match h' with
              | Some _ => (h', p :: ps, false)
              | None => (None, [], tsr)
              end
          end
      end
  | catch_all =>
      match hd with
      | Some h => (Some h, [param (drop 1 pre) ("/" :: path)], false)
      | None => (None, [], false)
      end
  end.

(** The declarations of a route pattern from left to right, each with
    the text that a lookup of the pattern itself supplies for it: the
    segment for a parameter, the segment behind its slash for a
    catch-all. *)
Fixpoint declared (b : bool) (pat : bytes) : Params :=
  match pat with
  | [] => []
  | c :: pat' =>
      (if b && wild_start c then
         [param (segment pat')
            (if Ascii.eqb c "*" then "/" :: c :: segment pat' else c :: segment pat')]
       else [])
      ++ declared (Ascii.eqb c "/") pat'
  end.
End RouteTree.

Arguments node : clear implicits.

(** ** The router over the route tree *)

Section RouterOverTree.
Context {handle : Type}.

Definition register (r : Router (node handle)) (method path : string) (h : handle)
  : outcome (Router (node handle)) :=
  Handle new_node addRoute r method path h.

Definition lookup (r : Router (node handle)) (method path : string)
  : option handle * Params * bool :=
  Lookup getValue r method path.

(** A sequence of registrations, stopping at the first failure. *)
Fixpoint register_all (regs : list (string * string * handle))
    (r : Router (node handle)) : outcome (Router (node handle)) :=
  match regs with
  | [] => Ok r
  | (method, path, h) :: regs' =>
      do r' <- register r method path h; register_all regs' r'
  end.

End RouterOverTree.

(** ** Reference normalisation on segments *)

(** The segments of a path: the pieces between consecutive ['/'] bytes
    (a path with [k] slashes has [k + 1] segments, some possibly empty). *)
Fixpoint split_slash (s : bytes) : list bytes :=
  match s with
  | [] => [[]]
  | c :: s' =>
      if Ascii.eqb c "/" then [] :: split_slash s'
      else match split_slash s' with
           | seg :: segs => (c :: seg) :: segs
           | [] => [[c]]
           end
  end.

(** One segment against the stack of kept segments (most recent first):
    empty segments (runs of slashes) and [.] are dropped, [..] removes the
    most recently kept segment and does nothing on the empty stack. *)
Definition keep (stack : list bytes) (seg : bytes) : list bytes :=
  if decide (seg = []) then stack
  else if decide (seg = ["."]) then stack
  else if decide (seg = ["."; "."]) then tail stack
  else seg :: stack.

Definition kept_from (stack : list bytes) (s : bytes) : list bytes :=
  fold_left keep (split_slash s) stack.

Definition kept (p : bytes) : list bytes := kept_from [] p.

(** Each kept segment behind its own ['/'], oldest first. *)
Definition render (stack : list bytes) : bytes :=
  concat (map (cons "/") (reverse stack)).

(** The rejoined path; no kept segment gives the root. *)
Definition join (stack : list bytes) : bytes :=
  match stack with
  | [] => ["/"]
  | _ => render stack
  end.

Arguments render : simpl never.
Arguments join : simpl never.

(** The reference exactly as the description words it: split, drop empty
    and [.] segments, let [..] pop, rejoin under a leading slash. *)
Definition reference_normalize (p : bytes) : bytes := join (kept p).

(** The input asks for a trailing slash: it is longer than one byte and
    ends in ['/'], or its final segment is [.]. *)
Definition wants_trailing (p : bytes) : bool :=
  bool_decide (1 < length p) && bool_decide (last p = Some "/")
  || bool_decide (last (split_slash p) = Some ["."]).

(** The reference with the trailing-slash rule: a requested trailing slash
    is put back whenever some segment was kept. *)
Definition reference_normalize_trailing (p : bytes) : bytes :=
  match kept p with
  | [] => ["/"]
  | k => render k ++ (if wants_trailing p then ["/"] else [])
  end.

(** A kept segment is a real path element. *)
Definition element (seg : bytes) : Prop :=
  ("/" ∉ seg) ∧ seg ≠ [] ∧ seg ≠ ["."] ∧ seg ≠ ["."; "."].

(** ** Paths as strings *)

(** The reference as the description words it, on strings. *)
Definition normalize_as_stated (p : string) : string :=
  string_of_list_ascii (reference_normalize (list_ascii_of_string p)).

(** The reference with the trailing-slash rule, on strings. *)
Definition normalize_trailing (p : string) : string :=
  string_of_list_ascii (reference_normalize_trailing (list_ascii_of_string p)).

(** The segments of a path, between its slashes. *)
Definition segments (p : string) : list string :=
  string_of_list_ascii <$> split_slash (list_ascii_of_string p).

Definition final_segment (p : string) : option string := last (segments p).

Definition ends_in (p : string) (c : ascii) : Prop :=
  last (list_ascii_of_string p) = Some c.

(** ** Parameters of a pattern looked up as a path *)

(** What the lookup of a pattern captures for one of its segments: a
    parameter segment [:name] captures the segment itself, a catch-all
    segment [*name] captures it together with the slash in front of it,
    any other segment captures nothing. *)
Definition captured (seg : bytes) : option Param :=
  match seg with
  | c :: name =>
      if Ascii.eqb c ":" then Some (param name seg)
      else if Ascii.eqb c "*" then Some (param name ("/" :: seg))
      else None
  | [] => None
  end.

(** The parameters captured by looking up the pattern [path] itself, in
    the order of its declarations.  The text before the first slash is not
    at a segment boundary. *)
Definition literal_params (path : string) : Params :=
  omap captured (tail (split_slash (list_ascii_of_string path))).

(** As the claim words it: every declaration captures its literal segment. *)
Definition captured_segment (seg : bytes) : option Param :=
  match seg with
  | c :: name => if wild_start c then Some (param name seg) else None
  | [] => None
  end.

Definition segment_params (path : string) : Params :=
  omap captured_segment (tail (split_slash (list_ascii_of_string path))).

(** ** Invariants used in the proofs *)

(** [stored p off buf o]: the output [o] written so far, as the code holds
    it.  Without a buffer, [o] is a prefix of the input (which then starts
    with a slash, [off = 0]); with a buffer [b] of [len(p) + off] bytes,
    [o] is a prefix of [b]. *)
Definition stored (p : bytes) (off : nat) (buf : option bytes) (o : bytes) : Prop :=
  match buf with
  | None => off = 0 ∧ take (length o) p = o
  | Some b => length b = length p + off ∧ take (length o) b = o
  end.

Definition segment_end (tl : bytes) : Prop := tl = [] ∨ ∃ rest, tl = "/" :: rest.

Definition init_trailing (p : bytes) : bool :=
  bool_decide (1 < length p) && bool_decide (last p = Some "/").

Section RouteTreeInvariant.
Context {handle : Type}.
Implicit Types (n c : node handle) (cs : list (node handle)).

(** The routes stored below a node, as patterns relative to the position
    where the node's prefix starts. *)
Fixpoint routes (n : node handle) : list (bytes * handle) :=
  let '(Node pre k cs wild hd cnt) := n in
  match hd with Some h => [(pre, h)] | None => [] end
  ++ ((λ x, (pre ++ x.1, x.2)) <$> (cs ≫= routes)).

Definition static_children cs : Prop :=
  (∀ c, c ∈ cs → nkind c = static ∧ prefix c ≠ [])
  ∧ NoDup ((λ c, head (prefix c)) <$> cs).

(** What a node looks like, given whether it starts at a segment boundary. *)
Definition shape (b : bool) (pre : bytes) (k : kind) (cs : list (node handle))
    (wild : bool) (hd : option handle) : Prop :=
  match k with
  | static =>
      split_wild b pre = None
      ∧ (if wild
         then (∃ c, cs = [c] ∧ nkind c ≠ static) ∧ boundary_after b pre = true
         else static_children cs)
  | parameter =>
      b = true ∧ (∃ name, pre = ":" :: name ∧ ("/" ∉ name)) ∧ wild = false
      ∧ static_children cs ∧ (∀ c, c ∈ cs → head (prefix c) = Some "/")
  | catch_all =>
      b = true ∧ (∃ name, pre = "*" :: name ∧ ("/" ∉ name)) ∧ wild = false
      ∧ cs = [] ∧ is_Some hd
  end.

Inductive wf : bool → node handle → Prop :=
  | wf_node b pre k cs wild hd cnt :
      shape b pre k cs wild hd →
      (∀ c, c ∈ cs → wf (boundary_after b pre) c) →
      wf b (Node pre k cs wild hd cnt).

Definition only_route (c : node handle) (path : bytes) (h : handle) : Prop :=
  ∀ pat h', (pat, h') ∈ routes c ↔ pat = path ∧ h' = h.

Definition chain_ok (b : bool) (path : bytes) (h : handle) (c : node handle) : Prop :=
  wf b c ∧ only_route c path h ∧ head (prefix c) = head path
  ∧ (nkind c = static ↔ ∀ x, head path = Some x → b && wild_start x = false).

Definition added (n n' : node handle) (path : bytes) (h : handle) : Prop :=
  ∀ pat h', (pat, h') ∈ routes n' ↔ (pat = path ∧ h' = h) ∨ (pat, h') ∈ routes n.

Definition add_ok (b : bool) (n : node handle) (path : bytes) (h : handle) n' : Prop :=
  wf b n' ∧ added n n' path h ∧ nkind n' = nkind n
  ∧ head (prefix n') = head (prefix n).

(** Every tree of the router is well formed and stores exactly the routes
    registered so far under its method. *)
Definition router_inv (regs : list (string * string * handle))
    (r : Router (node handle)) : Prop :=
  ∀ method,
    match trees r !! method with
    | Some root =>
        wf false root ∧ prefix root = []
        ∧ ∀ pat h, (pat, h) ∈ routes root ↔
                   ∃ path, (method, path, h) ∈ regs ∧ pat = list_ascii_of_string path
    | None => ∀ path h, (method, path, h) ∉ regs
    end.

End RouteTreeInvariant.

Ltac seg_cases seg :=
  destruct (decide (seg = [])) as [->|?];
    [|destruct (decide (seg = ["."])) as [->|?];
      [|destruct (decide (seg = ["."; "."])) as [->|?]]].

(** ** path.go: the [return] that [CleanPath] takes *)

(** The three [return] statements of [CleanPath]: the constant ["/"], the
    slice [p[:w]] of the argument when no buffer was allocated, and
    [string(buf[:w])]. *)
Inductive cp_return :=
  | ReturnRoot
  | ReturnSlice (w : nat)
  | ReturnBuffer (buf : bytes) (w : nat).

(** [CleanPath] up to its [return]. *)
Definition CleanPath_return (p : bytes) : outcome cp_return :=
  match p with
  | [] => Ok ReturnRoot
  | c :: _ =>
      let n := length p in
      let '(buf, r) :=
        if negb (Ascii.eqb c "/")
        then (Some (<[0:="/"]> (make (n + 1))), 0)
        else (None, 1) in
      let trailing := bool_decide (1 < n) && bool_decide (p !! (n - 1) = Some "/") in
      do st <- clean_loop n p n (CpState buf r 1 trailing);
      let '(CpState buf r w trailing) := st in
      do (buf, w) <-
        (if trailing && bool_decide (1 < w) then
           do b <- bufApp buf p w "/"; Ok (b, w + 1)
         else Ok (buf, w));
      match buf with
      | None => Ok (ReturnSlice w)
      | Some b => Ok (ReturnBuffer b w)
      end
  end.

(** The value of a [return]. *)
Definition returned (p : bytes) (ret : cp_return) : outcome bytes :=
  match ret with
  | ReturnRoot => Ok ["/"]
  | ReturnSlice w => slice_to p w
  | ReturnBuffer b w => slice_to b w
  end.

(** What stands behind the leading slash of a clean path: elements with
    one slash between them, with or without a slash at the end. *)
Inductive clean_rest : bytes → Prop :=
  | clean_rest_nil : clean_rest []
  | clean_rest_last seg : element seg → clean_rest seg
  | clean_rest_cons seg rest :
      element seg → clean_rest rest → clean_rest (seg ++ "/" :: rest).

(** ** router.go: file serving, allowed methods and request dispatch *)

(** What [ServeHTTP] does with a request.  The redirect carries the new
    [req.URL.Path] and the status code; [NotAllowed] and [NotFound] stand
    for the registered handler or the default of [net/http]. *)
Inductive response (handle : Type) : Type :=
  | Served (h : handle) (ps : Params)
  | Redirected (path : string) (code : nat)
  | AllowHeader (allow : string)
  | NotAllowed (allow : string)
  | NotFound.
Arguments Served {handle} h ps.
Arguments Redirected {handle} path code.
Arguments AllowHeader {handle} allow.
Arguments NotAllowed {handle} allow.
Arguments NotFound {handle}.

Definition nil_dereference : string :=
  "runtime error: invalid memory address or nil pointer dereference".

(** [allow = method] on the first method, [allow += ", " + method] later. *)
Definition extend_allow (allow method : string) : string :=
  if Nat.eqb (String.length allow) 0 then method else (allow ++ ", " ++ method)%string.

Section RouterServe.
Context {handle node : Type}.
Variable new_node : node.
Variable addRoute : node → bytes → handle → outcome node.
Variable getValue : node → bytes → option handle * Params * bool.
(** The case-insensitive lookup of the tree, for the fixed-path redirect. *)
Variable findCaseInsensitivePath : node → bytes → bool → bytes * bool.

(** The loop of [allowed] for a path other than [*], over the methods in
    the order [order] in which [range r.trees] yields them. *)
Fixpoint allowed_scan (r : Router node) (path reqMethod : string)
    (order : list string) (allow : string) : outcome string :=
  match order with
  | [] => Ok allow
  | method :: rest =>
      if String.eqb method reqMethod || String.eqb method "OPTIONS"
      then allowed_scan r path reqMethod rest allow
      else
        match trees r !! method with
        | None => Panic nil_dereference
        | Some root =>
            match getValue root (list_ascii_of_string path) with
            | (Some _, _, _) =>
                allowed_scan r path reqMethod rest (extend_allow allow method)
            | (None, _, _) => allowed_scan r path reqMethod rest allow
            end
        end
  end.

(** [allowed].  Go leaves the iteration order of a map open: [order] is the
    order in which the methods of [r.trees] come up in this call. *)
Definition allowed (order : list string) (r : Router node)
    (path reqMethod : string) : outcome string :=
  do allow <-
    (if String.eqb path "*" then
       Ok (fold_left
             (λ allow method,
                if String.eqb method "OPTIONS" then allow
                else extend_allow allow method)
             order EmptyString)
     else allowed_scan r path reqMethod order EmptyString);
  Ok (if Nat.ltb 0 (String.length allow) then (allow ++ ", OPTIONS")%string else allow).

(** The path of the trailing-slash redirect. *)
Definition toggle_slash (path : string) : string :=
  if Nat.ltb 1 (String.length path)
     && bool_decide (String.get (String.length path - 1) path = Some "/")
  then substring 0 (String.length path - 1) path
  else (path ++ "/")%string.

(** The first half of [ServeHTTP]: the tree of the request method. *)
Definition serve_tree (r : Router node) (method path : string)
  : outcome (option (response handle)) :=
  match trees r !! method with
  | None => Ok None
  | Some root =>
      match getValue root (list_ascii_of_string path) with
      | (Some h, ps, _) => Ok (Some (Served h ps))
      | (None, _, tsr) =>
          if negb (String.eqb method "CONNECT") && negb (String.eqb path "/") then
            let code := if negb (String.eqb method "GET") then 307 else 301 in
            if tsr && RedirectTrailingSlash r then
              Ok (Some (Redirected (toggle_slash path) code))
            else if RedirectFixedPath r then
              do cleaned <- CleanPath path;
              let '(fixedPath, found) :=
                findCaseInsensitivePath root (list_ascii_of_string cleaned)
                  (RedirectTrailingSlash r) in
              if found
              then Ok (Some (Redirected (string_of_list_ascii fixedPath) code))
              else Ok None
            else Ok None
          else Ok None
      end
  end.

(** [ServeHTTP], as the decision it takes for a request with method
    [method] and [req.URL.Path = path].  The handle is not run here, so the
    recovery of a panic of the handle ([recv]) has no part in it. *)
Definition ServeHTTP (order : list string) (r : Router node)
    (method path : string) : outcome (response handle) :=
  do first <- serve_tree r method path;
  match first with
  | Some resp => Ok resp
  | None =>
      if String.eqb method "OPTIONS" && HandleOPTIONS r then
        do allow <- allowed order r path method;
        if Nat.ltb 0 (String.length allow) then Ok (AllowHeader allow) else Ok NotFound
      else if HandleMethodNotAllowed r then
        do allow <- allowed order r path method;
        if Nat.ltb 0 (String.length allow) then Ok (NotAllowed allow) else Ok NotFound
      else Ok NotFound
  end.

(** Does [method] have a tree with a handler for [path]? *)
Definition has_handler (r : Router node) (path method : string) : bool :=
  match trees r !! method with
  | Some root =>
      match getValue root (list_ascii_of_string path) with
      | (Some _, _, _) => true
      | _ => false
      end
  | None => false
  end.

(** Does [allowed] put [method] on its list?  [OPTIONS] is skipped; for
    the path [*] every other method is listed, for another path the
    methods other than the one of the request that have a handler. *)
Definition listed (r : Router node) (path reqMethod method : string) : bool :=
  negb (String.eqb method "OPTIONS")
  && (String.eqb path "*"
      || negb (String.eqb method reqMethod) && has_handler r path method).
End RouterServe.

(** A router over a stand-in for the tree, for the examples: the root 1
    has a handler for every path, the root 2 has none and recommends the
    trailing-slash redirect, the root 0 has nothing; the case-insensitive
    lookup finds nothing. *)
Definition example_getValue (root : nat) (_ : bytes) : option nat * Params * bool :=
  (if Nat.eqb root 1 then Some 7 else None, [], Nat.eqb root 2).

Definition example_find (_ : nat) (path : bytes) (_ : bool) : bytes * bool :=
  (path, false).

Definition example_router : Router nat :=
  set_tree (set_tree (set_tree New "GET" 1) "POST" 0) "PUT" 2.

(** The value of the [Allow] header for the methods [ms]. *)
Definition allow_header (ms : list string) : string :=
  match ms with
  | [] => EmptyString
  | _ => String.concat ", " (ms ++ ["OPTIONS"%string])
  end.

(** ** params_go17.go: parameters in the request context *)

(** The keys of a context: [ParamsKey], whose type [paramsKey] is private
    to the package, and the keys of other packages. *)
Inductive context_key := ParamsKey | foreign_key (id : nat).

Global Instance context_key_eq_dec : EqDecision context_key.
Proof. solve_decision. Defined.

(** The values of a context: parameters, or a value of another type. *)
Inductive context_value := params_value (ps : Params) | foreign_value (v : nat).

(** [context.Context] as far as values go: [context.WithValue] puts a pair
    in front of its parent. *)
Inductive Context := Background | WithValue (parent : Context)
                                    (key : context_key) (val : context_value).

(** [ctx.Value(key)]: the value of the innermost pair with that key. *)
Fixpoint ContextValue (ctx : Context) (key : context_key) : option context_value :=
  match ctx with
  | Background => None
  | WithValue parent k v =>
      if decide (k = key) then Some v else ContextValue parent key
  end.

(** [ParamsFromContext]: the type assertion [.(Params)] with its second
    result dropped gives [nil] when there is no value or it has another
    type. *)
Definition ParamsFromContext (ctx : Context) : Params :=
  match ContextValue ctx ParamsKey with
  | Some (params_value ps) => ps
  | _ => []
  end.

(** A request, with what the adapters of this file touch. *)
Record Request := { req_method : string; req_path : string; req_ctx : Context }.

(** [req.WithContext(ctx)] *)
Definition WithContext (req : Request) (ctx : Context) : Request :=
  {| req_method := req_method req; req_path := req_path req; req_ctx := ctx |}.

(** [req.URL.Path = path] *)
Definition set_URL_Path (req : Request) (path : string) : Request :=
  {| req_method := req_method req; req_path := path; req_ctx := req_ctx req |}.

(** The handle that [Handler] registers for an [http.Handler]: it stores
    the parameters in the context of the request and calls the handler.
    An [http.Handler] is taken as what it computes from the request. *)
Definition context_handle {A} (handler : Request → A) : Request → Params → A :=
  λ req p,
    let ctx := req_ctx req in
    let ctx := WithValue ctx ParamsKey (params_value p) in
    let req := WithContext req ctx in
    handler req.

Section RouterAdapters.
Context {A node : Type}.
Variable new_node : node.
Variable addRoute : node → bytes → (Request → Params → A) → outcome node.

Definition Handler (r : Router node) (method path : string)
    (handler : Request → A) : outcome (Router node) :=
  Handle new_node addRoute r method path (context_handle handler).

Definition HandlerFunc (r : Router node) (method path : string)
    (handler : Request → A) : outcome (Router node) :=
  Handler r method path handler.

(** The handle that [ServeFiles] registers: it overwrites [req.URL.Path]
    with the parameter [filepath] and calls the file server, taken as
    what it computes from the request. *)
Definition file_handle (fileServer : Request → A) : Request → Params → A :=
  λ req ps,
    let req := set_URL_Path req (ByName ps "filepath") in
    fileServer req.

(** [ServeFiles]: the path has to end in [/*filepath]; the comparison is
    on the last ten bytes. *)
Definition ServeFiles (r : Router node) (path : string)
    (fileServer : Request → A) : outcome (Router node) :=
  if Nat.ltb (String.length path) 10
     || negb (String.eqb (substring (String.length path - 10) 10 path) "/*filepath")
  then Panic ("path must end with /*filepath in path '" ++ path ++ "'")
  else GET new_node addRoute r path (file_handle fileServer).
End RouterAdapters.

(** The two conditions on the order of the methods, on a given list of
    methods and a given router. *)
Ltac methods_have_trees :=
  let m := fresh "m" in
  let Hm := fresh "Hm" in
  intros m Hm; repeat (apply elem_of_cons in Hm as [-> | Hm]);
  [by vm_compute; eexists ..|by apply elem_of_nil in Hm].


(** * Proofs *)

(** The path that the comment in the main loop of [CleanPath] takes as its
    example: the [..] removes [src]. *)
Example CleanPath_loop_comment :
  CleanPath "/src/.././//filepath/" = Ok "/filepath/"%string.
Proof. vm_compute. reflexivity. Qed.

(** ** Facts about segments *)

Lemma split_slash_nonempty s : split_slash s ≠ [].
Proof.
  destruct s as [|c s]; simpl; [done|].
  destruct (Ascii.eqb c "/"); [done|]. by destruct (split_slash s).
Qed.

Lemma split_slash_last_segment seg :
  "/" ∉ seg → split_slash seg = [seg].
Proof.
  induction seg as [|c seg IH]; intros Hno; simpl; [done|].
  apply not_elem_of_cons in Hno as [Hc Hseg].
  destruct (Ascii.eqb_spec c "/") as [->|_]; [done|].
  by rewrite IH.
Qed.

Lemma split_slash_segment seg rest :
  "/" ∉ seg → split_slash (seg ++ "/" :: rest) = seg :: split_slash rest.
Proof.
  induction seg as [|c seg IH]; intros Hno; simpl; [done|].
  apply not_elem_of_cons in Hno as [Hc Hseg].
  destruct (Ascii.eqb_spec c "/") as [->|_]; [done|].
  by rewrite IH.
Qed.

(** Every input starts with a slash-free segment that either ends the
    input or is followed by a slash. *)
Lemma first_segment (s : bytes) :
  ∃ seg tl, s = seg ++ tl ∧ ("/" ∉ seg) ∧ (tl = [] ∨ ∃ rest, tl = "/" :: rest).
Proof.
  induction s as [|c s (seg & tl & -> & Hno & Htl)].
  - exists [], []. split_and!; [done|apply not_elem_of_nil|by left].
  - destruct (decide (c = "/")) as [->|Hc].
    + exists [], ("/" :: seg ++ tl). split_and!; [done|apply not_elem_of_nil|eauto].
    + exists (c :: seg), tl. split_and!; [done| |done].
      apply not_elem_of_cons. split; [congruence|done].
Qed.

Lemma kept_from_last stack seg :
  "/" ∉ seg → kept_from stack seg = keep stack seg.
Proof. intros H. unfold kept_from. by rewrite split_slash_last_segment. Qed.

Lemma kept_from_segment stack seg rest :
  "/" ∉ seg → kept_from stack (seg ++ "/" :: rest) = kept_from (keep stack seg) rest.
Proof. intros H. unfold kept_from. by rewrite split_slash_segment. Qed.

Lemma keep_element stack seg : element seg → keep stack seg = seg :: stack.
Proof. intros (_ & ? & ? & ?). unfold keep. by repeat case_decide. Qed.

Lemma render_cons seg stack : render (seg :: stack) = render stack ++ "/" :: seg.
Proof.
  unfold render. rewrite reverse_cons, map_app, concat_app. simpl.
  by rewrite app_nil_r.
Qed.

Lemma render_nil : render [] = [].
Proof. done. Qed.

Lemma join_length_cons seg stack : 1 < length (join (seg :: stack)) ∨ seg = [].
Proof.
  destruct seg as [|c seg]; [by right|left].
  unfold join. rewrite render_cons, length_app. simpl. lia.
Qed.

Lemma join_length stack : 1 ≤ length (join stack).
Proof.
  destruct stack as [|seg stack]; [done|].
  unfold join. rewrite render_cons, length_app. simpl. lia.
Qed.

Lemma render_join stack : render stack ++ ["/"] = match stack with [] => join [] | _ => join stack ++ ["/"] end.
Proof. by destruct stack. Qed.

(** ** The output buffer of [CleanPath] *)

Lemma take_store (b : bytes) w c :
  w < length b → take (S w) (<[w:=c]> b) = take w b ++ [c].
Proof.
  intros Hw. rewrite (take_S_r _ _ c) by by apply list_lookup_insert_eq.
  by rewrite take_insert_ge by lia.
Qed.

Lemma index_Some (s : bytes) i c : s !! i = Some c → index s i = Ok c.
Proof. unfold index. by intros ->. Qed.

Lemma index_app_r pre (rest : bytes) i c :
  rest !! i = Some c → index (pre ++ rest) (length pre + i) = Ok c.
Proof.
  intros H. apply index_Some. rewrite lookup_app_r by lia.
  by replace (length pre + i - length pre) with i by lia.
Qed.

Lemma index_app_r0 pre (rest : bytes) c :
  rest !! 0 = Some c → index (pre ++ rest) (length pre) = Ok c.
Proof.
  intros H. rewrite <-(Nat.add_0_r (length pre)). by apply index_app_r.
Qed.

Lemma bufApp_stored p off buf o c :
  stored p off buf o → length o < length p + off →
  ∃ buf', bufApp buf p (length o) c = Ok buf' ∧ stored p off buf' (o ++ [c]).
Proof.
  intros Hst Hcap. destruct buf as [b|]; simpl in *.
  - destruct Hst as [Hlen Htake]. unfold store.
    rewrite decide_True by lia. simpl. eexists; split; [done|]. simpl.
    rewrite length_insert, length_app. simpl. split; [done|].
    rewrite Nat.add_1_r, take_store by lia. by rewrite Htake.
  - destruct Hst as [-> Htake]. rewrite Nat.add_0_r in Hcap.
    destruct (lookup_lt_is_Some_2 p (length o) Hcap) as [x Hx].
    rewrite (index_Some _ _ _ Hx). simpl.
    destruct (Ascii.eqb_spec x c) as [->|Hne].
    + exists None. split; [done|]. simpl. split; [done|].
      rewrite length_app. simpl. rewrite Nat.add_1_r.
      rewrite (take_S_r _ _ c) by done. by rewrite Htake.
    + unfold store. unfold make.
      assert (Hlen : length (take (length o) p ++ drop (length o) (replicate (length p) zero)) = length p).
      { rewrite length_app, length_take, length_drop, length_replicate. lia. }
      rewrite decide_True by lia. simpl. eexists; split; [done|]. simpl.
      rewrite length_insert, Hlen, length_app. simpl. split; [lia|].
      rewrite Nat.add_1_r, take_store by lia. f_equal.
      rewrite take_app_le by (rewrite length_take; lia).
      by rewrite take_take, Nat.min_id.
Qed.

Lemma stored_take p off buf o k :
  stored p off buf o → stored p off buf (take k o).
Proof.
  destruct buf as [b|]; simpl; intros [H1 H2]; (split; [done|]);
    rewrite <-H2 at 2; rewrite length_take, take_take; f_equal; lia.
Qed.

Lemma stored_lookup p off buf o i c :
  stored p off buf o → o !! i = Some c →
  match buf with None => p | Some b => b end !! i = Some c.
Proof.
  intros Hst Hi. pose proof (lookup_lt_Some _ _ _ Hi) as Hlt.
  destruct buf as [b|]; simpl in *; destruct Hst as [_ Ht];
    rewrite <-Ht in Hi; by rewrite lookup_take_lt in Hi by lia.
Qed.

Lemma backtrack_unfold src w :
  1 < w →
  backtrack src w =
    (do c <- index src w; if Ascii.eqb c "/" then Ok w else backtrack src (w - 1)).
Proof.
  destruct w as [|[|w]]; [lia|lia|]. intros _.
  by replace (S (S w) - 1) with (S w) by lia.
Qed.

(** The backtracking loop runs down over a slash-free stretch and stops on
    the slash before it, or at index 1. *)
Lemma backtrack_down (src : bytes) m k :
  (∀ i, m < i ≤ m + k → ∃ c, src !! i = Some c ∧ c ≠ "/") →
  (2 ≤ m → src !! m = Some "/") →
  (m = 0 → 1 ≤ k) → m ≠ 1 →
  backtrack src (m + k) = Ok (if decide (m = 0) then 1 else m).
Proof.
  intros Hseg Hm H0 H1. induction k as [|k IH].
  - rewrite Nat.add_0_r. destruct m as [|[|m]]; [lia|lia|].
    simpl. rewrite (index_Some _ _ _ (Hm ltac:(lia))). by simpl.
  - destruct (decide (m + S k = 1)) as [Heq|Hne].
    { rewrite Heq. assert (m = 0) as -> by lia. done. }
    rewrite backtrack_unfold by lia.
    destruct (Hseg (m + S k) ltac:(lia)) as (c & Hc & Hne').
    rewrite (index_Some _ _ _ Hc). simpl.
    destruct (Ascii.eqb_spec c "/") as [?|_]; [done|].
    replace (m + S k - 1) with (m + k) by lia.
    apply IH; [|lia]. intros i Hi. apply Hseg. lia.
Qed.

Lemma stack_join_length seg stack :
  Forall element (seg :: stack) → 1 < length (join (seg :: stack)).
Proof.
  intros H. apply Forall_cons in H as [(_ & Hne & _) _].
  by destruct (join_length_cons seg stack).
Qed.

Lemma join_render_length stack :
  Forall element stack →
  length (render stack) = if decide (stack = []) then 0 else length (join stack).
Proof. by destruct stack. Qed.

Lemma backtrack_stack p off buf seg stack :
  Forall element (seg :: stack) →
  stored p off buf (join (seg :: stack)) →
  backtrack (match buf with None => p | Some b => b end)
    (length (join (seg :: stack)) - 1) = Ok (length (join stack))
  ∧ stored p off buf (join stack).
Proof.
  intros Hel Hst. pose proof Hel as Hel'.
  apply Forall_cons in Hel' as [(Hno & Hne & _) Hstack].
  assert (Hj : join (seg :: stack) = render stack ++ "/" :: seg).
  { unfold join. by rewrite render_cons. }
  split.
  - set (m := length (render stack)).
    assert (Hm : m ≠ 1 ∧ (if decide (m = 0) then 1 else m) = length (join stack)).
    { unfold m. destruct stack as [|s stack]; [done|].
      pose proof (stack_join_length _ _ Hstack) as Hl. unfold join in *.
      split; [lia|]. by rewrite decide_False by lia. }
    destruct Hm as [Hm1 <-].
    replace (length (join (seg :: stack)) - 1) with (m + length seg)
      by (rewrite Hj, length_app; simpl; lia).
    apply backtrack_down; [| |destruct seg; simpl; [done|lia]|done].
    + intros i Hi.
      destruct (lookup_lt_is_Some_2 seg (i - m - 1) ltac:(lia)) as [c Hc].
      exists c. split.
      * eapply stored_lookup; [done|]. rewrite Hj.
        rewrite lookup_app_r by (fold m; lia). fold m.
        replace (i - m) with (S (i - m - 1)) by lia. done.
      * intros ->. apply list_elem_of_lookup_2 in Hc. done.
    + intros _. eapply stored_lookup; [done|]. rewrite Hj.
      rewrite lookup_app_r by (fold m; lia). fold m.
      by rewrite Nat.sub_diag.
  - assert (join stack = take (length (join stack)) (join (seg :: stack))) as ->;
      [|by apply stored_take].
    rewrite Hj. destruct stack as [|s stack]; [done|].
    unfold join. by rewrite take_app_length.
Qed.

(** ** One pass of the main loop, case by case *)

Lemma copy_element_spec off seg : ∀ pre tl buf o k,
  ("/" ∉ seg) → segment_end tl →
  stored (pre ++ seg ++ tl) off buf o →
  length o + length seg ≤ length (pre ++ seg ++ tl) + off →
  length seg ≤ k →
  ∃ buf',
    copy_element k (pre ++ seg ++ tl) (length (pre ++ seg ++ tl)) buf
      (length pre) (length o)
    = Ok (buf', length pre + length seg, length o + length seg)
    ∧ stored (pre ++ seg ++ tl) off buf' (o ++ seg).
Proof.
  induction seg as [|c seg IH]; intros pre tl buf o k Hno Htl Hst Hcap Hk.
  - exists buf. rewrite !Nat.add_0_r, app_nil_r. split; [|done].
    destruct k; simpl; case_decide as Hr; try done.
    all: destruct Htl as [->|[rest ->]];
      [rewrite length_app in Hr; simpl in Hr; lia|].
    all: by rewrite (index_app_r0 _ _ "/").
  - apply not_elem_of_cons in Hno as [Hc Hseg].
    destruct k as [|k]; [simpl in Hk; lia|].
    change ((c :: seg) ++ tl) with (c :: (seg ++ tl)) in *.
    assert (Hp : pre ++ c :: seg ++ tl = (pre ++ [c]) ++ seg ++ tl)
      by by rewrite <-app_assoc.
    assert (Hlen : length (pre ++ c :: seg ++ tl) = length pre + S (length seg + length tl))
      by (rewrite !length_app; simpl; rewrite length_app; lia).
    simpl in Hcap, Hk. cbn [copy_element].
    rewrite decide_True by lia.
    rewrite (index_app_r0 _ _ c) by done. cbn [obind].
    destruct (Ascii.eqb_spec c "/") as [?|_]; [done|]. cbn [negb].
    destruct (bufApp_stored _ off buf o c Hst) as (buf1 & -> & Hst1); [lia|].
    cbn [obind]. rewrite Hp in *.
    destruct (IH (pre ++ [c]) tl buf1 (o ++ [c]) k) as (buf2 & Hcopy & Hst2);
      [done|done|done| |lia|].
    { rewrite (length_app o). cbn [length]. lia. }
    rewrite (length_app pre), (length_app o) in Hcopy. cbn [length] in Hcopy.
    exists buf2. split.
    + rewrite Hcopy. cbn [length]. do 2 f_equal; [f_equal|]; lia.
    + by rewrite <-(assoc_L (++) o) in Hst2.
Qed.

Lemma step_slash pre rest buf w t :
  clean_step (pre ++ "/" :: rest) (length (pre ++ "/" :: rest))
    (CpState buf (length pre) w t)
  = Ok (CpState buf (length pre + 1) w t).
Proof. unfold clean_step. by rewrite (index_app_r0 _ _ "/"). Qed.

Lemma step_dot_end pre buf w t :
  clean_step (pre ++ ["."]) (length (pre ++ ["."])) (CpState buf (length pre) w t)
  = Ok (CpState buf (length pre + 1) w true).
Proof.
  unfold clean_step. rewrite (index_app_r0 _ _ ".") by done. simpl.
  rewrite length_app. simpl. by rewrite bool_decide_true by lia.
Qed.

Lemma step_dot_slash pre rest buf w t :
  clean_step (pre ++ "." :: "/" :: rest) (length (pre ++ "." :: "/" :: rest))
    (CpState buf (length pre) w t)
  = Ok (CpState buf (length pre + 2) w t).
Proof.
  unfold clean_step. rewrite (index_app_r0 _ _ ".") by done. simpl.
  rewrite length_app. simpl. rewrite bool_decide_false by lia.
  by rewrite (index_app_r _ _ 1 "/").
Qed.

Lemma step_dotdot off pre tl buf stack t :
  segment_end tl →
  Forall element stack →
  stored (pre ++ "." :: "." :: tl) off buf (join stack) →
  clean_step (pre ++ "." :: "." :: tl) (length (pre ++ "." :: "." :: tl))
    (CpState buf (length pre) (length (join stack)) t)
  = Ok (CpState buf (length pre + 3) (length (join (tail stack))) t)
  ∧ stored (pre ++ "." :: "." :: tl) off buf (join (tail stack)).
Proof.
  intros Htl Hel Hst. unfold clean_step.
  rewrite (index_app_r0 _ _ ".") by done. simpl.
  rewrite length_app. simpl. rewrite bool_decide_false by lia.
  rewrite (index_app_r _ _ 1 ".") by done. simpl.
  assert (Hdd :
    (if bool_decide (length pre + 2 = length pre + S (S (length tl)))
     then Ok true
     else do c2 <- index (pre ++ "." :: "." :: tl) (length pre + 2);
          Ok (Ascii.eqb c2 "/")) = Ok true).
  { destruct Htl as [->|[rest ->]]; simpl.
    - by rewrite bool_decide_true by lia.
    - rewrite bool_decide_false by lia. by rewrite (index_app_r _ _ 2 "/"). }
  rewrite Hdd. cbn [obind].
  destruct stack as [|seg stack]; [done|].
  pose proof (stack_join_length _ _ Hel) as Hlen.
  rewrite decide_True by done. cbn [tail].
  destruct (backtrack_stack _ _ _ _ _ Hel Hst) as [Hb Hst'].
  destruct buf; rewrite Hb; done.
Qed.

Lemma element_default seg tl pre :
  element seg → segment_end tl →
  ∃ c0, index (pre ++ seg ++ tl) (length pre) = Ok c0
    ∧ Ascii.eqb c0 "/" = false
    ∧ Ascii.eqb c0 "." && bool_decide (length pre + 1 = length (pre ++ seg ++ tl)) = false
    ∧ (if Ascii.eqb c0 "." then
         do c1 <- index (pre ++ seg ++ tl) (length pre + 1); Ok (Ascii.eqb c1 "/")
       else Ok false) = Ok false
    ∧ (if Ascii.eqb c0 "." then
         do c1 <- index (pre ++ seg ++ tl) (length pre + 1);
         if Ascii.eqb c1 "." then
           if bool_decide (length pre + 2 = length (pre ++ seg ++ tl)) then Ok true
           else do c2 <- index (pre ++ seg ++ tl) (length pre + 2);
                Ok (Ascii.eqb c2 "/")
         else Ok false
       else Ok false) = Ok false.
Proof.
  intros (Hno & Hne & Hdot & Hdotdot) Htl.
  destruct seg as [|c0 seg]; [done|].
  apply not_elem_of_cons in Hno as [Hc0 Hno].
  exists c0. rewrite (index_app_r0 _ _ c0) by done.
  split; [done|]. split; [by apply Ascii.eqb_neq|].
  destruct (Ascii.eqb_spec c0 ".") as [->|_]; [|done].
  destruct seg as [|c1 seg]; [done|].
  apply not_elem_of_cons in Hno as [Hc1 Hno].
  rewrite !length_app. simpl.
  rewrite bool_decide_false by lia. split; [done|].
  rewrite (index_app_r _ _ 1 c1) by done. simpl.
  destruct (Ascii.eqb_spec c1 "/") as [?|_]; [done|]. split; [done|].
  destruct (Ascii.eqb_spec c1 ".") as [->|_]; [|done].
  destruct seg as [|c2 seg]; [done|].
  apply not_elem_of_cons in Hno as [Hc2 Hno].
  simpl. rewrite bool_decide_false by lia.
  rewrite (index_app_r _ _ 2 c2) by done. simpl.
  by destruct (Ascii.eqb_spec c2 "/").
Qed.

Lemma step_element off pre seg tl buf stack t :
  element seg → segment_end tl →
  Forall element stack →
  stored (pre ++ seg ++ tl) off buf (join stack) →
  1 ≤ length pre + off →
  (length (join stack) = 1 ∨ length (join stack) + 1 ≤ length pre + off) →
  ∃ buf',
    clean_step (pre ++ seg ++ tl) (length (pre ++ seg ++ tl))
      (CpState buf (length pre) (length (join stack)) t)
    = Ok (CpState buf' (length pre + length seg) (length (join (seg :: stack))) t)
    ∧ stored (pre ++ seg ++ tl) off buf' (join (seg :: stack)).
Proof.
  intros Hseg Htl Hel Hst Hpre Hbound.
  destruct (element_default seg tl pre Hseg Htl) as (c0 & Hc0 & H1 & H2 & H3 & H4).
  unfold clean_step. rewrite Hc0. simpl. rewrite H1, H2, H3. simpl.
  rewrite H4. simpl.
  pose proof Hseg as (Hno & Hne & _).
  assert (Hslash : ∃ buf1,
    (if decide (1 < length (join stack))
     then do b <- bufApp buf (pre ++ seg ++ tl) (length (join stack)) "/";
          Ok (b, length (join stack) + 1)
     else Ok (buf, length (join stack)))
    = Ok (buf1, length (render stack ++ ["/"]))
    ∧ stored (pre ++ seg ++ tl) off buf1 (render stack ++ ["/"])).
  { destruct stack as [|s stack].
    - exists buf. by rewrite decide_False by (simpl; lia).
    - pose proof (stack_join_length _ _ Hel) as Hlen.
      rewrite decide_True by done.
      destruct (bufApp_stored _ off buf (join (s :: stack)) "/" Hst) as (buf1 & -> & Hst1).
      { rewrite !length_app. lia. }
      exists buf1. simpl. rewrite length_app. done. }
  destruct Hslash as (buf1 & -> & Hst1). simpl.
  assert (Hlen1 : length (render stack ++ ["/"]) ≤ length pre + off).
  { rewrite length_app. simpl. destruct stack as [|s stack]; [simpl; lia|].
    pose proof (stack_join_length _ _ Hel). unfold join in *. lia. }
  destruct (copy_element_spec off seg pre tl buf1 (render stack ++ ["/"])
              (length (pre ++ seg ++ tl) - length pre)) as (buf2 & -> & Hst2);
    [done|done|done| | |].
  1-2: rewrite (length_app pre), (length_app seg); lia.
  cbn [obind]. exists buf2.
  assert (Hj : join (seg :: stack) = (render stack ++ ["/"]) ++ seg).
  { unfold join. by rewrite render_cons, <-app_assoc. }
  rewrite Hj. split; [|done]. by rewrite (length_app _ seg).
Qed.

(** ** The main loop *)

Lemma clean_loop_done fuel p n st :
  ¬ cp_r st < n → clean_loop fuel p n st = Ok st.
Proof. intros H. destruct fuel; simpl; by rewrite decide_False. Qed.

Lemma clean_loop_step fuel p n st :
  cp_r st < n →
  clean_loop (S fuel) p n st = (do st' <- clean_step p n st; clean_loop fuel p n st').
Proof. intros H. simpl. by rewrite decide_True. Qed.

Lemma tail_element stack : Forall element stack → Forall element (tail stack).
Proof. destruct stack; [done|]. by intros [_ ?]%Forall_cons. Qed.

Lemma join_tail_length stack :
  Forall element stack → length (join (tail stack)) ≤ length (join stack).
Proof.
  destruct stack as [|seg stack]; [done|]. intros Hel. cbn [tail].
  unfold join at 2. rewrite render_cons, length_app.
  destruct stack as [|s stack]; [simpl; lia|]. unfold join. lia.
Qed.

Lemma join_cons_length seg stack :
  Forall element stack →
  length (join (seg :: stack))
  = (if decide (stack = []) then 0 else length (join stack)) + 1 + length seg.
Proof.
  intros Hel. unfold join at 1. rewrite render_cons, length_app.
  rewrite (join_render_length _ Hel). simpl. lia.
Qed.

Lemma last_split_slash_cons seg rest :
  ("/" ∉ seg) →
  last (split_slash (seg ++ "/" :: rest)) = last (split_slash rest).
Proof.
  intros Hno. rewrite split_slash_segment by done.
  pose proof (split_slash_nonempty rest). by destruct (split_slash rest).
Qed.

Lemma init_trailing_last_element pre seg :
  ("/" ∉ seg) → seg ≠ [] → init_trailing (pre ++ seg) = false.
Proof.
  intros Hno Hne. unfold init_trailing.
  destruct (last seg) as [c|] eqn:Hlast; [|by apply last_None in Hlast].
  rewrite last_app, Hlast. rewrite (bool_decide_false (Some c = Some "/")).
  - by rewrite andb_false_r.
  - intros [= ->]. apply last_Some_elem_of in Hlast. done.
Qed.

Lemma keep_nil stack : keep stack [] = stack.
Proof. done. Qed.
Lemma keep_dot stack : keep stack ["."] = stack.
Proof. done. Qed.
Lemma keep_dotdot stack : keep stack ["."; "."] = tail stack.
Proof. done. Qed.

Lemma clean_loop_spec off : ∀ fuel p pre rest stack buf,
  p = pre ++ rest → length rest ≤ fuel →
  Forall element stack →
  stored p off buf (join stack) →
  1 ≤ length pre + off →
  (length (join stack) = 1 ∨ length (join stack) + 1 ≤ length pre + off) →
  ∃ buf' r' t',
    clean_loop fuel p (length p)
      (CpState buf (length pre) (length (join stack)) (init_trailing p))
    = Ok (CpState buf' r' (length (join (kept_from stack rest))) t')
    ∧ Forall element (kept_from stack rest)
    ∧ stored p off buf' (join (kept_from stack rest))
    ∧ t' = init_trailing p || bool_decide (last (split_slash rest) = Some ["."])
    ∧ (t' = true →
       length (join (kept_from stack rest)) = 1
       ∨ length (join (kept_from stack rest)) < length p + off).
Proof.
  induction fuel as [fuel IH] using lt_wf_ind.
  intros p pre rest stack buf Hp Hfuel Hel Hst Hpre Hbound.
  destruct (first_segment rest) as (seg & tl & -> & Hno & Htl).
  assert (Hlenp : length p = length pre + length seg + length tl)
    by (rewrite Hp, !length_app; lia).
  pose proof Htl as [->|[rest ->]].
  - (* the final segment *)
    rewrite app_nil_r in *. rewrite kept_from_last by done.
    rewrite split_slash_last_segment by done. cbn [last].
    simpl in Hlenp.
    seg_cases seg.
    + rewrite app_nil_r in Hp. subst p.
      exists buf, (length pre), (init_trailing pre).
      rewrite clean_loop_done by (simpl; lia). rewrite keep_nil.
      rewrite bool_decide_false by done. rewrite orb_false_r.
      split_and!; [done..|]. intros _. lia.
    + destruct fuel as [|fuel]; [simpl in Hfuel; lia|]. subst p.
      rewrite clean_loop_step by (simpl in *; lia).
      rewrite step_dot_end. cbn [obind].
      rewrite clean_loop_done by (simpl in *; lia).
      rewrite keep_dot. do 3 eexists. split; [done|].
      rewrite bool_decide_true by done. rewrite orb_true_r.
      split_and!; [done..|]. intros _. simpl in *. lia.
    + destruct fuel as [|fuel]; [simpl in Hfuel; lia|]. subst p.
      rewrite clean_loop_step by (simpl in *; lia).
      destruct (step_dotdot off pre [] buf stack (init_trailing (pre ++ ["."; "."])))
        as [Hstep Hst']; [by left|done|done|].
      rewrite Hstep. cbn [obind].
      rewrite clean_loop_done by (simpl in *; lia).
      rewrite keep_dotdot. do 3 eexists. split; [done|].
      rewrite bool_decide_false by congruence. rewrite orb_false_r.
      split_and!; [by apply tail_element|done|done|].
      by rewrite init_trailing_last_element.
    + assert (Hseg : element seg) by done.
      destruct fuel as [|fuel]; [destruct seg; simpl in Hfuel; [done|lia]|].
      subst p.
      rewrite clean_loop_step by (destruct seg; simpl in *; [done|lia]).
      destruct (step_element off pre seg [] buf stack (init_trailing (pre ++ seg)))
        as (buf' & Hstep & Hst'); [done|by left|done|by rewrite app_nil_r|done|done|].
      rewrite app_nil_r in Hstep, Hst'.
      rewrite Hstep. cbn [obind].
      rewrite clean_loop_done by (simpl in *; lia).
      rewrite keep_element by done. do 3 eexists. split; [done|].
      rewrite bool_decide_false by congruence. rewrite orb_false_r.
      split_and!; [by apply Forall_cons|done|done|].
      by rewrite init_trailing_last_element.
  - (* a segment followed by a slash *)
    rewrite kept_from_segment by done.
    rewrite last_split_slash_cons by done.
    rewrite length_app in Hfuel. simpl in Hfuel, Hlenp.
    seg_cases seg.
    + destruct fuel as [|fuel]; [lia|].
      simpl in Hp. rewrite clean_loop_step by (simpl in *; lia).
      pose proof (step_slash pre rest buf (length (join stack)) (init_trailing p)) as Hs.
      rewrite <-Hp in Hs. rewrite Hs. cbn [obind]. rewrite keep_nil.
      destruct (IH fuel ltac:(lia) p (pre ++ ["/"]) rest stack buf)
        as (buf' & r' & t' & Hloop & Hrest);
        [by rewrite <-app_assoc|simpl in *; lia|done|done|
         rewrite length_app; simpl; lia|rewrite length_app; simpl; lia|].
      rewrite length_app in Hloop. cbn [length] in Hloop.
      eauto.
    + destruct fuel as [|fuel]; [lia|].
      simpl in Hp. rewrite clean_loop_step by (simpl in *; lia).
      pose proof (step_dot_slash pre rest buf (length (join stack)) (init_trailing p)) as Hs.
      rewrite <-Hp in Hs. rewrite Hs. cbn [obind]. rewrite keep_dot.
      destruct (IH fuel ltac:(lia) p (pre ++ ["."; "/"]) rest stack buf)
        as (buf' & r' & t' & Hloop & Hrest);
        [by rewrite <-app_assoc|simpl in *; lia|done|done|
         rewrite length_app; simpl; lia|rewrite length_app; simpl; lia|].
      rewrite length_app in Hloop. cbn [length] in Hloop.
      eauto.
    + destruct fuel as [|fuel]; [lia|].
      simpl in Hp. rewrite clean_loop_step by (simpl in *; lia).
      destruct (step_dotdot off pre ("/" :: rest) buf stack (init_trailing p))
        as [Hstep Hst']; [right; eauto|done|by rewrite <-Hp|].
      rewrite <-Hp in Hstep, Hst'. rewrite Hstep. cbn [obind]. rewrite keep_dotdot.
      pose proof (join_tail_length stack Hel) as Htail.
      destruct (IH fuel ltac:(lia) p (pre ++ ["."; "."; "/"]) rest (tail stack) buf)
        as (buf' & r' & t' & Hloop & Hrest);
        [by rewrite <-app_assoc|simpl in *; lia|by apply tail_element|done|
         rewrite length_app; simpl; lia|rewrite length_app; simpl; lia|].
      rewrite length_app in Hloop. cbn [length] in Hloop.
      eauto.
    + assert (Hseg : element seg) by done.
      assert (1 ≤ length seg) by (destruct seg; simpl; [done|lia]).
      destruct fuel as [|[|fuel]]; [lia|lia|].
      rewrite clean_loop_step by (simpl in *; lia).
      destruct (step_element off pre seg ("/" :: rest) buf stack (init_trailing p))
        as (buf1 & Hstep & Hst1); [done|right; eauto|done|by rewrite <-Hp|done|done|].
      rewrite <-Hp in Hstep, Hst1. rewrite Hstep. cbn [obind].
      rewrite clean_loop_step by (simpl in *; lia).
      assert (Hp' : p = (pre ++ seg) ++ "/" :: rest) by by rewrite <-app_assoc.
      rewrite <-(length_app pre seg).
      pose proof (step_slash (pre ++ seg) rest buf1 (length (join (seg :: stack)))
                    (init_trailing p)) as Hs.
      rewrite <-Hp' in Hs. rewrite Hs. cbn [obind].
      rewrite keep_element by done.
      pose proof (join_cons_length seg stack Hel) as Hjl.
      destruct (IH fuel ltac:(lia) p ((pre ++ seg) ++ ["/"]) rest (seg :: stack) buf1)
        as (buf' & r' & t' & Hloop & Hrest);
        [by rewrite <-app_assoc|lia|by apply Forall_cons|done|
         rewrite !length_app; simpl; lia| |].
      { right. rewrite !length_app. cbn [length]. rewrite Hjl.
        case_decide; [lia|].
        destruct stack as [|s stack]; [done|].
        pose proof (stack_join_length _ _ Hel). lia. }
      rewrite (length_app _ ["/"]) in Hloop. cbn [length] in Hloop.
      eauto.
Qed.

(** ** [CleanPath] computes the reference with the trailing-slash rule *)

Lemma stored_result p off buf o :
  stored p off buf o →
  match buf with None => slice_to p (length o) | Some b => slice_to b (length o) end
  = Ok o.
Proof.
  unfold slice_to.
  destruct buf as [b|]; intros [_ Ht]; pose proof (f_equal length Ht) as Hl;
    rewrite length_take in Hl; rewrite decide_True by lia; by rewrite Ht.
Qed.

Lemma clean_finish p off buf t :
  Forall element (kept p) →
  stored p off buf (join (kept p)) →
  t = wants_trailing p →
  (t = true → length (join (kept p)) = 1 ∨ length (join (kept p)) < length p + off) →
  (do bw <-
     (if t && bool_decide (1 < length (join (kept p))) then
        do b <- bufApp buf p (length (join (kept p))) "/";
        Ok (b, length (join (kept p)) + 1)
      else Ok (buf, length (join (kept p))));
   let '(buf, w) := bw in
   match buf with
   | None => slice_to p w
   | Some b => slice_to b w
   end) = Ok (reference_normalize_trailing p).
Proof.
  intros Hel Hst -> Hcap. unfold reference_normalize_trailing.
  destruct (kept p) as [|seg stack] eqn:Hk.
  - rewrite andb_false_r. cbn [obind].
    apply stored_result in Hst. destruct buf; by rewrite Hst.
  - pose proof (stack_join_length _ _ Hel) as Hlen.
    rewrite bool_decide_true by done. rewrite andb_true_r.
    destruct (wants_trailing p); cbn [obind].
    + destruct (bufApp_stored _ _ _ _ "/" Hst) as (buf' & -> & Hst');
        [destruct Hcap; [done|lia|done]|].
      cbn [obind]. apply stored_result in Hst'.
      rewrite length_app in Hst'. cbn [length] in Hst'.
      destruct buf'; by rewrite Hst'.
    + rewrite app_nil_r. apply stored_result in Hst.
      destruct buf; by rewrite Hst.
Qed.

Lemma kept_leading_slash q : kept ("/" :: q) = kept_from [] q.
Proof.
  exact (kept_from_segment [] [] q (not_elem_of_nil _)).
Qed.

Lemma wants_trailing_leading_slash q :
  bool_decide (last (split_slash ("/" :: q)) = Some ["."])
  = bool_decide (last (split_slash q) = Some ["."]).
Proof.
  pose proof (last_split_slash_cons [] q (not_elem_of_nil _)) as H.
  change ([] ++ "/" :: q) with ("/" :: q) in H. by rewrite H.
Qed.

Lemma init_trailing_index p :
  bool_decide (1 < length p) && bool_decide (p !! (length p - 1) = Some "/")
  = init_trailing p.
Proof. unfold init_trailing. rewrite last_lookup. by rewrite Nat.sub_1_r. Qed.

Theorem CleanPath_bytes_reference p :
  CleanPath_bytes p = Ok (reference_normalize_trailing p).
Proof.
  destruct p as [|c q]; [done|].
  unfold CleanPath_bytes. rewrite init_trailing_index.
  set (p := c :: q).
  destruct (Ascii.eqb_spec c "/") as [->|Hc]; cbn [negb].
  - destruct (clean_loop_spec 0 (length p) p ["/"] q [] None)
      as (buf' & r' & t' & Hloop & Hel & Hst & Ht & Hcap);
      [done|simpl; lia|done|done|simpl; lia|by left|].
    change (length ["/"]) with 1 in Hloop. change (length (join [])) with 1 in Hloop.
    rewrite Hloop. cbn [obind].
    rewrite <-kept_leading_slash in *. fold p in Hel, Hst, Hcap |- *.
    apply (clean_finish p 0); [done|done| |done].
    rewrite Ht. unfold wants_trailing, init_trailing. subst p.
    by rewrite wants_trailing_leading_slash.
  - destruct (clean_loop_spec 1 (length p) p [] p []
                (Some (<[0:="/"]> (make (length p + 1)))))
      as (buf' & r' & t' & Hloop & Hel & Hst & Ht & Hcap);
      [done|done|done| |simpl; lia|by left|].
    { unfold make. split; [by rewrite length_insert, length_replicate|].
      by rewrite Nat.add_1_r. }
    change (length []) with 0 in Hloop. change (length (join [])) with 1 in Hloop.
    rewrite Hloop. cbn [obind].
    by apply (clean_finish p 1).
Qed.

(** ** Properties of the reference *)

Lemma split_slash_slash_free s : Forall (λ seg, "/" ∉ seg) (split_slash s).
Proof.
  induction s as [|c s IH]; simpl.
  - constructor; [apply not_elem_of_nil|done].
  - destruct (Ascii.eqb_spec c "/") as [->|Hc].
    + constructor; [apply not_elem_of_nil|done].
    + destruct (split_slash s) as [|seg segs] eqn:Hs; [by apply split_slash_nonempty in Hs|].
      apply Forall_cons in IH as [Hseg Hsegs].
      constructor; [|done]. apply not_elem_of_cons. split; [congruence|done].
Qed.

Lemma keep_elements stack seg :
  Forall element stack → ("/" ∉ seg) → Forall element (keep stack seg).
Proof.
  intros Hel Hno. unfold keep. repeat case_decide; try done.
  - by apply tail_element.
  - by apply Forall_cons.
Qed.

Lemma fold_keep_elements segs : ∀ stack,
  Forall element stack → Forall (λ seg, "/" ∉ seg) segs →
  Forall element (fold_left keep segs stack).
Proof.
  induction segs as [|seg segs IH]; intros stack Hel Hno; simpl; [done|].
  apply Forall_cons in Hno as [Hseg Hsegs].
  apply IH; [|done]. by apply keep_elements.
Qed.

Lemma kept_elements p : Forall element (kept p).
Proof. apply fold_keep_elements; [done|apply split_slash_slash_free]. Qed.

(** Joining the segments of [s] behind slashes gives back ["/" ++ s]. *)
Lemma concat_split_slash s : concat (map (cons "/") (split_slash s)) = "/" :: s.
Proof.
  induction s as [|c s IH]; simpl; [done|].
  destruct (Ascii.eqb_spec c "/") as [->|Hc]; simpl.
  - by rewrite IH.
  - destruct (split_slash s) as [|seg segs]; [done|].
    simpl in *. by injection IH as ->.
Qed.

Lemma fold_keep_all_elements segs : ∀ stack,
  Forall element segs → fold_left keep segs stack = reverse segs ++ stack.
Proof.
  induction segs as [|seg segs IH]; intros stack Hel; simpl; [done|].
  apply Forall_cons in Hel as [Hseg Hsegs].
  rewrite IH by done. rewrite keep_element by done.
  by rewrite reverse_cons, <-app_assoc.
Qed.

(** Segments of a path written as elements behind slashes. *)
Lemma split_slash_elements es : ∀ x sfx,
  ("/" ∉ x) → Forall element es → sfx = [] ∨ sfx = ["/"] →
  split_slash (x ++ concat (map (cons "/") es) ++ sfx)
  = (x :: es) ++ (if decide (sfx = []) then [] else [[]]).
Proof.
  induction es as [|e es IH]; intros x sfx Hx Hel Hsfx; simpl.
  - destruct Hsfx as [-> | ->]; simpl.
    + rewrite app_nil_r. by apply split_slash_last_segment.
    + by rewrite split_slash_segment.
  - apply Forall_cons in Hel as [He Hes].
    rewrite split_slash_segment by done. f_equal.
    rewrite <-app_assoc. apply IH; [apply He|done|done].
Qed.

Lemma split_slash_render k sfx :
  Forall element k → sfx = [] ∨ sfx = ["/"] →
  split_slash (render k ++ sfx)
  = ([] :: reverse k) ++ (if decide (sfx = []) then [] else [[]]).
Proof.
  intros Hel Hsfx.
  apply (split_slash_elements (reverse k) [] sfx);
    [apply not_elem_of_nil|by apply Forall_reverse|done].
Qed.

Lemma kept_render k sfx :
  Forall element k → sfx = [] ∨ sfx = ["/"] → kept (render k ++ sfx) = k.
Proof.
  intros Hel Hsfx. unfold kept, kept_from.
  rewrite split_slash_render by done. rewrite fold_left_app. cbn [fold_left].
  rewrite keep_nil, (fold_keep_all_elements (reverse k)) by by apply Forall_reverse.
  rewrite reverse_involutive, app_nil_r.
  by destruct Hsfx as [-> | ->].
Qed.

Lemma render_last k seg c :
  last seg = Some c → last (render (seg :: k)) = Some c.
Proof.
  intros H. by rewrite render_cons, last_app, last_cons, H.
Qed.

Lemma element_last seg : element seg → ∃ c, last seg = Some c ∧ c ≠ "/".
Proof.
  intros (Hno & Hne & _). destruct (last seg) as [c|] eqn:Hlast.
  - exists c. split; [done|]. intros ->. by apply last_Some_elem_of in Hlast.
  - by apply last_None in Hlast.
Qed.

Lemma wants_trailing_render seg k :
  Forall element (seg :: k) →
  wants_trailing (render (seg :: k)) = false
  ∧ wants_trailing (render (seg :: k) ++ ["/"]) = true.
Proof.
  intros Hel. pose proof Hel as [Hseg Hk]%Forall_cons.
  unfold wants_trailing. split.
  - destruct (element_last seg Hseg) as (c & Hlast & Hc).
    rewrite (render_last _ _ c) by done.
    rewrite (bool_decide_false (Some c = Some "/")) by congruence.
    rewrite andb_false_r. simpl.
    rewrite <-(app_nil_r (render (seg :: k))).
    rewrite split_slash_render by (done || by left).
    rewrite decide_True by done. rewrite app_nil_r, reverse_cons.
    rewrite app_comm_cons, last_snoc.
    apply bool_decide_false. intros [= ->]. by destruct Hseg as (_ & _ & ? & _).
  - rewrite last_snoc, length_app. cbn [length].
    pose proof (stack_join_length _ _ Hel) as Hlen. unfold join in Hlen.
    rewrite !bool_decide_true by (done || lia). done.
Qed.

Theorem reference_idempotent p :
  reference_normalize_trailing (reference_normalize_trailing p)
  = reference_normalize_trailing p.
Proof.
  pose proof (kept_elements p) as Hel.
  unfold reference_normalize_trailing at 2 3.
  destruct (kept p) as [|seg k] eqn:Hk; [done|].
  destruct (wants_trailing_render seg k Hel) as [Hf Ht].
  unfold reference_normalize_trailing.
  destruct (wants_trailing p).
  - rewrite kept_render by (done || by right). by rewrite Ht.
  - rewrite kept_render by (done || by left). rewrite !app_nil_r.
    by rewrite Hf, app_nil_r.
Qed.

Theorem reference_trailing p :
  last (split_slash p) = Some ["."] ∨ last p = Some "/" →
  last (reference_normalize_trailing p) = Some "/".
Proof.
  intros H. unfold reference_normalize_trailing.
  destruct (kept p) as [|seg k] eqn:Hk; [done|].
  assert (wants_trailing p = true) as ->; [|by rewrite last_snoc].
  unfold wants_trailing. destruct H as [H|H].
  - rewrite (bool_decide_true (_ = Some ["."])) by done. apply orb_true_r.
  - rewrite (bool_decide_true (last p = _)) by done.
    destruct p as [|c [|c' p]]; [done| |done].
    simpl in H. injection H as ->. done.
Qed.

Theorem reference_canonical q :
  Forall (λ seg, seg ≠ [] ∧ seg ≠ ["."] ∧ seg ≠ ["."; "."]) (split_slash q) →
  reference_normalize_trailing ("/" :: q) = "/" :: q.
Proof.
  intros Hq.
  assert (Hel : Forall element (split_slash q)).
  { pose proof (split_slash_slash_free q) as Hno.
    rewrite Forall_forall in *. intros seg Hin. split; [by apply Hno|by apply Hq]. }
  assert (Hk : kept ("/" :: q) = reverse (split_slash q)).
  { rewrite kept_leading_slash. unfold kept_from.
    rewrite fold_keep_all_elements by done. by rewrite app_nil_r. }
  assert (Hr : render (kept ("/" :: q)) = "/" :: q).
  { rewrite Hk. unfold render. rewrite reverse_involutive.
    apply concat_split_slash. }
  unfold reference_normalize_trailing.
  destruct (kept ("/" :: q)) as [|seg k] eqn:Hkq.
  { apply (f_equal reverse) in Hk. rewrite reverse_involutive in Hk.
    symmetry in Hk. by apply split_slash_nonempty in Hk. }
  assert (Hel' : Forall element (seg :: k)) by (rewrite Hk; by apply Forall_reverse).
  destruct (wants_trailing_render seg k Hel') as [Hf _].
  rewrite Hr in Hf |- *. by rewrite Hf, app_nil_r.
Qed.

Theorem reference_absolute p : ∃ s, reference_normalize_trailing p = "/" :: s.
Proof.
  unfold reference_normalize_trailing.
  destruct (kept p) as [|seg k]; [by eexists|].
  unfold render. rewrite reverse_cons.
  destruct (reverse k) as [|e es]; simpl; by eexists.
Qed.

Theorem reference_relative p :
  p !! 0 ≠ Some "/" →
  reference_normalize_trailing p = reference_normalize_trailing ("/" :: p).
Proof.
  intros Hp. unfold reference_normalize_trailing.
  rewrite kept_leading_slash. fold (kept p).
  assert (wants_trailing ("/" :: p) = wants_trailing p) as ->; [|done].
  unfold wants_trailing. rewrite wants_trailing_leading_slash. f_equal.
  destruct p as [|c [|c' p]]; [done| |done].
  simpl. rewrite (bool_decide_false (Some c = _)); [done|].
  intros [= ->]. done.
Qed.

Lemma get_list_ascii (s : string) i :
  list_ascii_of_string s !! i = String.get i s.
Proof.
  revert i. induction s as [|c s IH]; intros [|i]; simpl; auto.
Qed.

Lemma ByName_first pre p post name :
  Forall (λ q, Key q ≠ name) pre → Key p = name →
  ByName (pre ++ p :: post) name = Value p.
Proof.
  intros Hpre Hp. induction Hpre as [|q pre Hq _ IH]; simpl.
  - by rewrite (proj2 (String.eqb_eq _ _) Hp).
  - by rewrite (proj2 (String.eqb_neq _ _) Hq).
Qed.

Lemma ByName_absent ps name :
  Forall (λ q, Key q ≠ name) ps → ByName ps name = EmptyString.
Proof.
  intros Hps. induction Hps as [|q ps Hq _ IH]; simpl; [done|].
  by rewrite (proj2 (String.eqb_neq _ _) Hq).
Qed.

(** ** Facts about prefixes, segments and wildcard positions *)

Lemma lcp_take (a b : bytes) : take (lcp a b) a = take (lcp a b) b.
Proof.
  revert b. induction a as [|x a IH]; intros [|y b]; simpl; try done.
  destruct (Ascii.eqb_spec x y) as [->|_]; simpl; [|done]. by rewrite IH.
Qed.

Lemma lcp_le_r (a b : bytes) : lcp a b ≤ length b.
Proof.
  revert b. induction a as [|x a IH]; intros [|y b]; simpl; try lia.
  destruct (Ascii.eqb x y); simpl; [|lia]. specialize (IH b). lia.
Qed.

Lemma lcp_differ (a b : bytes) x y a' b' :
  drop (lcp a b) a = x :: a' → drop (lcp a b) b = y :: b' → x ≠ y.
Proof.
  revert b. induction a as [|z a IH]; intros [|w b]; simpl; try done.
  destruct (Ascii.eqb_spec z w) as [->|Hne]; simpl; [by apply IH|].
  intros [= -> _] [= -> _]. done.
Qed.

Lemma lcp_head (a b : bytes) c : head a = Some c → head b = Some c → 1 ≤ lcp a b.
Proof.
  destruct a as [|x a], b as [|y b]; simpl; try done.
  intros [= ->] [= ->]. rewrite Ascii.eqb_refl. lia.
Qed.

Lemma lcp_split (a b : bytes) : a = take (lcp a b) b ++ drop (lcp a b) a.
Proof. by rewrite <-lcp_take, take_drop. Qed.

Lemma strip_prefix_app (pre s : bytes) : strip_prefix pre (pre ++ s) = Some s.
Proof. induction pre as [|x pre IH]; simpl; [done|]. by rewrite Ascii.eqb_refl. Qed.

Lemma strip_prefix_refl (pre : bytes) : strip_prefix pre pre = Some [].
Proof.
  pose proof (strip_prefix_app pre []) as H. by rewrite app_nil_r in H.
Qed.

Lemma strip_prefix_differ x y (pre s : bytes) :
  x ≠ y → strip_prefix (x :: pre) (y :: s) = None.
Proof. intros H. simpl. by destruct (Ascii.eqb_spec x y). Qed.

Lemma boundary_after_app b (x y : bytes) :
  boundary_after b (x ++ y) = boundary_after (boundary_after b x) y.
Proof.
  unfold boundary_after. rewrite last_app. by destruct (last y).
Qed.

Lemma boundary_after_cons b c (s : bytes) :
  boundary_after b (c :: s) = boundary_after (Ascii.eqb c "/") s.
Proof. apply (boundary_after_app b [c] s). Qed.

Lemma split_wild_step_None (c : ascii) (o : option (bytes * ascii * bytes)) :
  match o with Some (st, w, r) => Some (c :: st, w, r) | None => None end = None
  ↔ o = None.
Proof. by destruct o as [[[??]?]|]. Qed.

Lemma split_wild_app_None b (x y : bytes) :
  split_wild b (x ++ y) = None ↔
  split_wild b x = None ∧ split_wild (boundary_after b x) y = None.
Proof.
  revert b. induction x as [|c x IH]; intros b; simpl.
  - tauto.
  - rewrite boundary_after_cons.
    destruct (b && wild_start c); [by split; [|intros []]|].
    rewrite !split_wild_step_None. apply IH.
Qed.

Lemma split_wild_Some b (s st r : bytes) w :
  split_wild b s = Some (st, w, r) →
  s = st ++ w :: r ∧ split_wild b st = None
  ∧ boundary_after b st = true ∧ wild_start w = true.
Proof.
  revert b st. induction s as [|c s IH]; intros b st; simpl; [done|].
  destruct (b && wild_start c) eqn:Hb.
  - intros [= <- <- <-]. apply andb_true_iff in Hb as [-> Hw]. done.
  - destruct (split_wild (Ascii.eqb c "/") s) as [[[st' w'] r']|] eqn:Hs; [|done].
    intros [= <- <- <-]. destruct (IH _ _ Hs) as (-> & Hst & Hbd & Hw).
    simpl. rewrite Hb, Hst, boundary_after_cons. done.
Qed.

Lemma split_wild_head b c (s : bytes) :
  b && wild_start c = true → split_wild b (c :: s) = Some ([], c, s).
Proof. simpl. by intros ->. Qed.

Lemma split_wild_None_head b c (s : bytes) :
  split_wild b (c :: s) = None → b && wild_start c = false.
Proof. simpl. by destruct (b && wild_start c). Qed.

Lemma split_wild_slash_free (s : bytes) : ("/" ∉ s) → split_wild false s = None.
Proof.
  induction s as [|c s IH]; [done|]. intros [Hc Hs]%not_elem_of_cons. simpl.
  destruct (Ascii.eqb_spec c "/") as [->|_]; [done|]. by rewrite IH.
Qed.

Lemma boundary_after_slash_free (s : bytes) :
  ("/" ∉ s) → boundary_after false s = false.
Proof.
  intros Hs. unfold boundary_after. destruct (last s) as [c|] eqn:Hl; [|done].
  apply last_Some_elem_of in Hl. apply Ascii.eqb_neq. by intros ->.
Qed.

Lemma segment_app (x y : bytes) :
  ("/" ∉ x) → head y = None ∨ head y = Some "/" → segment (x ++ y) = x.
Proof.
  intros Hx Hy. induction x as [|c x IH]; simpl.
  - destruct y as [|c y]; [done|]. destruct Hy as [|[= ->]]; done.
  - apply not_elem_of_cons in Hx as [Hc Hx].
    destruct (Ascii.eqb_spec c "/") as [->|_]; [done|]. by rewrite IH.
Qed.

Lemma segment_slash_free (s : bytes) : "/" ∉ segment s.
Proof.
  induction s as [|c s IH]; simpl; [apply not_elem_of_nil|].
  destruct (Ascii.eqb_spec c "/") as [->|Hc]; [apply not_elem_of_nil|].
  apply not_elem_of_cons. split; [congruence|done].
Qed.

Lemma segment_rest (s : bytes) :
  s = segment s ++ drop (length (segment s)) s
  ∧ (head (drop (length (segment s)) s) = None
     ∨ head (drop (length (segment s)) s) = Some "/").
Proof.
  induction s as [|c s [IH1 IH2]]; simpl; [by split; [|left]|].
  destruct (Ascii.eqb_spec c "/") as [->|Hc]; simpl; [by split; [|right]|].
  split; [by rewrite <-IH1|done].
Qed.

Lemma declared_static b (x y : bytes) :
  split_wild b x = None →
  declared b (x ++ y) = declared (boundary_after b x) y.
Proof.
  revert b. induction x as [|c x IH]; intros b Hx; [done|].
  rewrite boundary_after_cons. simpl in *.
  destruct (b && wild_start c); [done|]. simpl. apply IH.
  by destruct (split_wild (Ascii.eqb c "/") x) as [[[??]?]|].
Qed.

Lemma split_slash_segment_head (s : bytes) :
  split_slash s = segment s :: tail (split_slash s).
Proof.
  induction s as [|c s IH]; simpl; [done|].
  destruct (Ascii.eqb c "/"); [done|]. by rewrite IH.
Qed.

(** The declarations found by the scan of the tree are those of the
    segments of the pattern. *)
Lemma declared_segments b (s : bytes) :
  declared b s = omap captured (if b then split_slash s else tail (split_slash s)).
Proof.
  revert b. induction s as [|c s IH]; intros b; [by destruct b|].
  cbn [declared]. rewrite IH. cbn [split_slash].
  destruct (Ascii.eqb_spec c "/") as [->|Hc].
  - rewrite andb_false_r. by destruct b.
  - rewrite (split_slash_segment_head s). cbn [tail].
    destruct b; [|done]. cbn [andb omap list_omap captured]. unfold wild_start.
    destruct (Ascii.eqb_spec c ":") as [->|_]; [done|].
    by destruct (Ascii.eqb_spec c "*") as [->|_].
Qed.

(** ** The route tree keeps its invariant *)

Section RouteTreeFacts.
Context {handle : Type}.
Implicit Types (n c : node handle) (cs : list (node handle)).

Lemma node_induction (P : node handle → Prop) :
  (∀ pre k cs wild hd cnt, Forall P cs → P (Node pre k cs wild hd cnt)) →
  ∀ n, P n.
Proof.
  intros step. fix IH 1. intros [pre k cs wild hd cnt]. apply step.
  induction cs as [|c cs IHcs]; constructor; [apply IH|apply IHcs].
Qed.

Lemma elem_of_routes pat h pre k cs wild hd cnt :
  (pat, h) ∈ routes (Node pre k cs wild hd cnt) ↔
  (pat = pre ∧ hd = Some h)
  ∨ ∃ c sub, c ∈ cs ∧ (sub, h) ∈ routes c ∧ pat = pre ++ sub.
Proof.
  cbn [routes]. rewrite elem_of_app, list_elem_of_fmap. split.
  - intros [Hhd|([sub h'] & [= -> ->] & Hin)].
    + left. destruct hd as [h'|]; [|by apply elem_of_nil in Hhd].
      apply list_elem_of_singleton in Hhd as [= -> ->]. done.
    + right. apply list_elem_of_bind in Hin as (c & Hsub & Hc). eauto.
  - intros [[-> ->]|(c & sub & Hc & Hsub & ->)].
    + left. apply list_elem_of_singleton. done.
    + right. exists (sub, h). split; [done|].
      apply list_elem_of_bind. eauto.
Qed.

Lemma wf_inv b pre k cs wild hd cnt :
  wf b (Node pre k cs wild hd cnt) →
  shape b pre k cs wild hd ∧ (∀ c, c ∈ cs → wf (boundary_after b pre) c).
Proof. by inversion 1. Qed.

Lemma wf_new_node : wf false (new_node (handle:=handle)).
Proof.
  constructor.
  - split; [done|]. split; [by intros ? ?%elem_of_nil|constructor].
  - by intros ? ?%elem_of_nil.
Qed.

Lemma routes_new_node : routes (new_node (handle:=handle)) = [].
Proof. done. Qed.

(** ** Fresh chains *)

Lemma wild_start_cases w :
  wild_start w = true → (w = "*" ∧ Ascii.eqb w "*" = true)
                        ∨ (w = ":" ∧ Ascii.eqb w "*" = false).
Proof.
  unfold wild_start. destruct (Ascii.eqb_spec w ":") as [->|_]; [by right|].
  destruct (Ascii.eqb_spec w "*") as [->|_]; [by left|done].
Qed.

Lemma only_route_leaf pre k wild (h : handle) cnt :
  only_route (Node pre k [] wild (Some h) cnt) pre h.
Proof.
  intros pat h'. rewrite elem_of_routes. split.
  - intros [[-> [= ->]]|(c & sub & Hc & _)]; [done|by apply elem_of_nil in Hc].
  - intros [-> ->]. by left.
Qed.

Lemma only_route_chain pre k wild c sub (h : handle) cnt :
  only_route c sub h →
  only_route (Node pre k [c] wild None cnt) (pre ++ sub) h.
Proof.
  intros Hc pat h'. rewrite elem_of_routes. split.
  - intros [[_ [=]]|(c' & sub' & ->%list_elem_of_singleton & Hsub & ->)].
    apply Hc in Hsub as [-> ->]. done.
  - intros [-> ->]. right. exists c, sub. split; [by apply list_elem_of_singleton|].
    split; [by apply Hc|done].
Qed.

Lemma static_children_nil : static_children (handle:=handle) [].
Proof. split; [by intros ? ?%elem_of_nil|constructor]. Qed.

Lemma static_children_singleton c :
  nkind c = static → prefix c ≠ [] → static_children [c].
Proof.
  intros Hk Hp. split.
  - by intros ? ->%list_elem_of_singleton.
  - apply NoDup_singleton.
Qed.

Lemma wildcard_node_ok more w r (h : handle) wc :
  wild_start w = true →
  (∀ rest child, rest ≠ [] → more rest = Ok child → chain_ok false rest h child) →
  wildcard_node more w r h = Ok wc →
  wf true wc ∧ only_route wc (w :: r) h ∧ prefix wc = w :: segment r
  ∧ nkind wc ≠ static.
Proof.
  intros Hw Hmore. unfold wildcard_node.
  destruct (segment_rest r) as [Hr Hrest].
  pose proof (segment_slash_free r) as Hname.
  set (name := segment r) in *. set (rest := drop (length name) r) in *.
  destruct (wild_start_cases w Hw) as [[-> ->]|[-> ->]];
    destruct rest as [|x rest'] eqn:Hrest'; try done.
  - rewrite app_nil_r in Hr. rewrite Hr. intros [= <-].
    split_and!; [|apply only_route_leaf|done|done].
    constructor; [|by intros ? ?%elem_of_nil].
    split; [done|]. split; [by exists name|]. by split_and!.
  - rewrite app_nil_r in Hr. rewrite Hr. intros [= <-].
    split_and!; [|apply only_route_leaf|done|done].
    constructor; [|by intros ? ?%elem_of_nil].
    split; [done|]. split; [by exists name|]. split; [done|].
    split; [apply static_children_nil|by intros ? ?%elem_of_nil].
  - destruct (more (x :: rest')) as [child| |] eqn:Hchild; try done.
    intros [= <-].
    destruct (Hmore (x :: rest') child ltac:(done) Hchild)
      as (Hwf & Hroute & Hhead & Hkind).
    assert (Hstatic : nkind child = static) by by apply Hkind.
    assert (x = "/") as -> by (destruct Hrest as [|[= ->]]; done).
    split_and!; [| |done|done].
    + constructor.
      * split; [done|]. split; [by exists name|]. split; [done|]. split.
        -- apply static_children_singleton; [done|]. by destruct (prefix child).
        -- by intros ? ->%list_elem_of_singleton.
      * intros ? ->%list_elem_of_singleton.
        rewrite boundary_after_cons. change (Ascii.eqb ":" "/") with false.
        by rewrite boundary_after_slash_free.
    + rewrite Hr. apply (only_route_chain (":" :: name)). done.
Qed.

Lemma insertChild_ok fuel : ∀ b path (h : handle) c,
  path ≠ [] → insertChild fuel b path h = Ok c → chain_ok b path h c.
Proof.
  induction fuel as [fuel IH] using lt_wf_ind.
  intros b path h c Hpath Hins.
  assert (Hunfold : insertChild fuel b path h =
    match split_wild b path with
    | None => Ok (Node path static [] false (Some h) 1)
    | Some (text, w, r) =>
        do wc <- wildcard_node
                   (λ rest, match fuel with
                            | 0 => Timeout
                            | S fuel' => insertChild fuel' false rest h
                            end) w r h;
        Ok (wrap_static text wc)
    end) by by destruct fuel.
  rewrite Hunfold in Hins. clear Hunfold.
  destruct (split_wild b path) as [[[text w] r]|] eqn:Hsplit.
  - apply split_wild_Some in Hsplit as (-> & Htext & Hbd & Hw).
    destruct (wildcard_node _ w r h) as [wc| |] eqn:Hwc; try done.
    injection Hins as <-.
    apply wildcard_node_ok in Hwc as (Hwf & Hroute & Hpre & Hkind); [|done|].
    2:{ intros rest child Hrest Hchild. destruct fuel as [|fuel]; [done|].
        by apply (IH fuel ltac:(lia)). }
    destruct text as [|x text]; cbn [wrap_static].
    + change (b = true) in Hbd. subst b. split_and!; [done|done|by rewrite Hpre|].
      split; [done|]. intros Hx. specialize (Hx w eq_refl). simpl in Hx. congruence.
    + split_and!; [|by apply (only_route_chain (x :: text))|done|].
      * constructor; [|intros ? ->%list_elem_of_singleton; by rewrite Hbd].
        split; [done|]. split; [eauto|done].
      * split; [|done]. intros _ y [= <-]. by eapply split_wild_None_head.
  - injection Hins as <-. split_and!.
    + constructor; [split; [done|apply static_children_nil]|by intros ? ?%elem_of_nil].
    + apply only_route_leaf.
    + done.
    + split; [|done]. intros _ x Hx. destruct path as [|y path]; [done|].
      injection Hx as ->. by eapply split_wild_None_head.
Qed.

(** ** Insertion keeps the invariant and adds exactly the new route *)

Lemma insert_sorted_perm c cs : insert_sorted c cs ≡ₚ c :: cs.
Proof.
  induction cs as [|d cs IH]; simpl; [done|].
  destruct (Nat.leb _ _); [done|]. rewrite IH. apply Permutation_swap.
Qed.

Lemma reorder_perm cs : reorder cs ≡ₚ cs.
Proof.
  induction cs as [|c cs IH]; simpl; [done|].
  by rewrite insert_sorted_perm, IH.
Qed.

Lemma elem_of_reorder c cs : c ∈ reorder cs ↔ c ∈ cs.
Proof. by rewrite reorder_perm. Qed.

Lemma static_children_reorder cs : static_children cs → static_children (reorder cs).
Proof.
  intros [Hk Hnd]. split.
  - intros c Hc. apply Hk. by apply elem_of_reorder.
  - by rewrite reorder_perm.
Qed.

Lemma update_child_ok descend fresh x cs cs' :
  update_child descend fresh x cs = Ok cs' →
  (∃ l1 ch l2 ch', cs = l1 ++ ch :: l2 ∧ head (prefix ch) = Some x
     ∧ descend ch = Ok ch' ∧ cs' = l1 ++ ch' :: l2)
  ∨ (∃ child : node handle, (∀ ch, ch ∈ cs → head (prefix ch) ≠ Some x)
     ∧ fresh = Ok child ∧ cs' = cs ++ [child]).
Proof.
  revert cs'. induction cs as [|ch cs IH]; intros cs'; simpl.
  - destruct fresh as [child| |]; try done. intros [= <-].
    right. exists child. split; [by intros ? ?%elem_of_nil|done].
  - case_bool_decide as Hhead.
    + destruct (descend ch) as [ch'| |] eqn:Hd; try done. intros [= <-].
      left. by exists [], ch, cs, ch'.
    + destruct (update_child descend fresh x cs) as [cs''| |]; try done.
      intros [= <-].
      destruct (IH cs'' eq_refl) as [(l1 & c & l2 & c' & -> & ? & ? & ->)
                                    |(child & Hno & ? & ->)].
      * left. by exists (ch :: l1), c, l2, c'.
      * right. exists child. split; [|done].
        intros c [->|?]%elem_of_cons; [done|by apply Hno].
Qed.

Lemma routes_split pre1 pre2 k cs wild hd cnt pat (h : handle) :
  (pat, h) ∈ routes (Node (pre1 ++ pre2) k cs wild hd cnt) ↔
  ∃ sub, pat = pre1 ++ sub ∧ (sub, h) ∈ routes (Node pre2 k cs wild hd cnt).
Proof.
  rewrite elem_of_routes. split.
  - intros [[-> ->]|(c & sub & Hc & Hsub & ->)].
    + exists pre2. split; [done|]. apply elem_of_routes. by left.
    + exists (pre2 ++ sub). split; [by rewrite app_assoc|].
      apply elem_of_routes. right. eauto.
  - intros (sub & -> & [[-> ->]|(c & sub' & Hc & Hsub & ->)]%elem_of_routes).
    + by left.
    + right. exists c, sub'. by rewrite app_assoc.
Qed.

Lemma wf_demoted b pre1 pre2 cs wild (hd : option handle) cnt :
  wf b (Node (pre1 ++ pre2) static cs wild hd cnt) →
  split_wild b pre1 = None
  ∧ wf (boundary_after b pre1) (Node pre2 static cs wild hd cnt).
Proof.
  intros [[Hsplit Hcs] Hwf]%wf_inv.
  apply split_wild_app_None in Hsplit as [H1 H2].
  rewrite boundary_after_app in Hcs, Hwf.
  split; [done|]. by constructor.
Qed.

Lemma shape_boundary_parameter b pre cs wild (hd : option handle) :
  shape b pre parameter cs wild hd → boundary_after b pre = false.
Proof.
  intros (_ & (name & -> & Hname) & _).
  rewrite boundary_after_cons. by apply boundary_after_slash_free.
Qed.

Lemma shape_set_handler b pre k cs wild (hd : option handle) h :
  shape b pre k cs wild hd → shape b pre k cs wild (Some h).
Proof. destruct k; simpl; [done|done|]. intros (?&?&?&?&_). by split_and!. Qed.

Local Opaque reorder.

Lemma elem_of_reorder_1 c cs : c ∈ reorder cs → c ∈ cs.
Proof. by rewrite elem_of_reorder. Qed.

(** Step 2: the node is split at the end of the common prefix. *)
Lemma add_split_ok b pre1 pre2 rest cs wild hd cnt (h : handle) n' :
  pre1 ≠ [] → pre2 ≠ [] →
  (∀ x y, head rest = Some x → head pre2 = Some y → x ≠ y) →
  wf b (Node (pre1 ++ pre2) static cs wild hd cnt) →
  match rest with
  | [] => Ok (Node pre1 static [Node pre2 static cs wild hd cnt] false (Some h) (cnt + 1))
  | c :: _ =>
      if boundary_after b pre1 && wild_start c then Panic conflict_static
      else
        do child <- insertChild (length rest) (boundary_after b pre1) rest h;
        Ok (Node pre1 static (reorder [Node pre2 static cs wild hd cnt; child])
              false None (cnt + 1))
  end = Ok n' →
  add_ok b (Node (pre1 ++ pre2) static cs wild hd cnt) (pre1 ++ rest) h n'.
Proof.
  intros Hpre1 Hpre2 Hdiff Hwf Hadd.
  destruct (wf_demoted _ _ _ _ _ _ _ Hwf) as [Hsplit Hdem].
  set (demoted := Node pre2 static cs wild hd cnt) in *.
  assert (Hhead : head pre1 = head (pre1 ++ pre2)) by by destruct pre1.
  destruct rest as [|x rest].
  - injection Hadd as <-. split_and!; [| |done|done].
    + constructor.
      * split; [done|]. by apply static_children_singleton.
      * by intros ? ->%list_elem_of_singleton.
    + intros pat h'. rewrite routes_split, elem_of_routes, app_nil_r. split.
      * intros [[-> [= ->]]|(c & sub & ->%list_elem_of_singleton & Hsub & ->)];
          [by left|right; eauto].
      * intros [[-> ->]|(sub & -> & Hsub)]; [by left|right].
        exists demoted, sub. split; [by apply list_elem_of_singleton|done].
  - destruct (boundary_after b pre1 && wild_start x) eqn:Hb; [done|].
    destruct (insertChild _ _ _ h) as [child| |] eqn:Hchild; try done.
    injection Hadd as <-.
    apply insertChild_ok in Hchild as (Hcwf & Hroute & Hchead & Hckind); [|done].
    assert (Hstatic : nkind child = static).
    { apply Hckind. by intros ? [= <-]. }
    split_and!; [| |done|done].
    + constructor.
      * split; [done|]. apply static_children_reorder. split.
        -- intros c [-> | ->%list_elem_of_singleton]%elem_of_cons; [done|].
           split; [done|]. by destruct (prefix child).
        -- cbn [fmap list_fmap]. apply NoDup_cons. split; [|apply NoDup_singleton].
           intros Heq%list_elem_of_singleton. cbn [prefix demoted] in Heq.
           rewrite Hchead in Heq. destruct pre2 as [|y pre2]; [done|].
           injection Heq as ->. by eapply Hdiff.
      * intros c [-> | ->%list_elem_of_singleton]%elem_of_reorder_1%elem_of_cons; done.
    + intros pat h'. rewrite routes_split, elem_of_routes. split.
      * intros [[_ [=]]|(c & sub & Hc & Hsub & ->)].
        rewrite elem_of_reorder in Hc.
        apply elem_of_cons in Hc as [-> | ->%list_elem_of_singleton].
        -- right. eauto.
        -- left. apply Hroute in Hsub as [-> ->]. done.
      * intros [[-> ->]|(sub & -> & Hsub)]; right.
        -- exists child, (x :: rest). split; [|split; [by apply Hroute|done]].
           rewrite elem_of_reorder. apply elem_of_cons. right.
           by apply list_elem_of_singleton.
        -- exists demoted, sub. split; [|done].
           rewrite elem_of_reorder. apply elem_of_cons. by left.
Qed.

(** Step 5: the handler is set on the terminal node. *)
Lemma add_handler_ok b pre k cs wild cnt (h : handle) :
  wf b (Node pre k cs wild None cnt) →
  add_ok b (Node pre k cs wild None cnt) pre h (Node pre k cs wild (Some h) (cnt + 1)).
Proof.
  intros [Hshape Hcs]%wf_inv. split_and!; [| |done|done].
  - constructor; [|done]. by eapply shape_set_handler.
  - intros pat h'. rewrite !elem_of_routes. split.
    + intros [[-> [= ->]]|?]; [by left|by right; right].
    + intros [[-> ->]|[[_ [=]]|?]]; [by left|by right].
Qed.

(** Descent into the wildcard child. *)
Lemma add_wild_ok b pre k child cs' hd cnt rest (h : handle) child' :
  wf b (Node pre k (child :: cs') true hd cnt) →
  add_ok (boundary_after b pre) child rest h child' →
  add_ok b (Node pre k (child :: cs') true hd cnt) (pre ++ rest) h
    (Node pre k (child' :: cs') true hd (cnt + 1)).
Proof.
  intros [Hshape Hcs]%wf_inv (Hwf' & Hadd & Hkind & Hhead).
  destruct k; [|by destruct Hshape as (_ & _ & [=] & _)..].
  destruct Hshape as (Hsplit & (c0 & [= <- ->] & Hck) & Hb).
  split_and!; [| |done|done].
  - constructor.
    + split; [done|]. split; [|done]. exists child'. by rewrite Hkind.
    + by intros ? ->%list_elem_of_singleton.
  - intros pat h'. rewrite !elem_of_routes. split.
    + intros [?|(c & sub & ->%list_elem_of_singleton & Hsub & ->)]; [by right; left|].
      apply Hadd in Hsub as [[-> ->]|Hsub]; [by left|].
      right; right. exists child, sub. by rewrite list_elem_of_singleton.
    + intros [[-> ->]|[?|(c & sub & ->%list_elem_of_singleton & Hsub & ->)]].
      * right. exists child', rest. rewrite list_elem_of_singleton.
        split; [done|]. split; [|done]. apply Hadd. by left.
      * by left.
      * right. exists child', sub. rewrite list_elem_of_singleton.
        split; [done|]. split; [|done]. apply Hadd. by right.
Qed.

(** Step 4: a first wildcard child. *)
Lemma add_new_wild_ok b pre k hd cnt x rest (h : handle) child :
  wf b (Node pre k [] false hd cnt) → k ≠ catch_all →
  boundary_after b pre && wild_start x = true →
  insertChild (length (x :: rest)) (boundary_after b pre) (x :: rest) h = Ok child →
  add_ok b (Node pre k [] false hd cnt) (pre ++ x :: rest) h
    (Node pre k [child] true hd (cnt + 1)).
Proof.
  intros [Hshape Hcs]%wf_inv Hk Hb Hchild.
  apply insertChild_ok in Hchild as (Hcwf & Hroute & Hchead & Hckind); [|done].
  destruct k; [| |done].
  2:{ apply shape_boundary_parameter in Hshape. by rewrite Hshape in Hb. }
  destruct Hshape as [Hsplit _]. apply andb_true_iff in Hb as [Hb Hx].
  split_and!; [| |done|done].
  - constructor.
    + split; [done|]. split; [|done]. exists child. split; [done|].
      intros Hstatic. pose proof (proj1 Hckind Hstatic x eq_refl) as Hf.
      by rewrite Hb, Hx in Hf.
    + by intros ? ->%list_elem_of_singleton.
  - intros pat h'. rewrite !elem_of_routes. split.
    + intros [?|(c & sub & ->%list_elem_of_singleton & Hsub & ->)]; [by right; left|].
      apply Hroute in Hsub as [-> ->]. by left.
    + intros [[-> ->]|[?|(c & sub & Hc & _)]]; [|by left|by apply elem_of_nil in Hc].
      right. exists child, (x :: rest). rewrite list_elem_of_singleton.
      split; [done|]. split; [by apply Hroute|done].
Qed.

Lemma static_children_replace l1 ch ch' l2 :
  static_children (handle:=handle) (l1 ++ ch :: l2) →
  nkind ch' = static → head (prefix ch') = head (prefix ch) →
  static_children (l1 ++ ch' :: l2).
Proof.
  intros [Hk Hnd] Hkind Hhead. split.
  - intros c [Hc|[->|Hc]%elem_of_cons]%elem_of_app.
    + apply Hk. apply elem_of_app. by left.
    + split; [done|]. destruct (Hk ch) as [_ Hne].
      { apply elem_of_app. right. by left. }
      destruct (prefix ch); [done|]. by destruct (prefix ch').
    + apply Hk. apply elem_of_app. right. by right.
  - rewrite fmap_app, fmap_cons in Hnd |- *. cbn beta in *. by rewrite Hhead.
Qed.

Lemma static_children_snoc cs child :
  static_children cs → nkind child = static → prefix child ≠ [] →
  (∀ ch, ch ∈ cs → head (prefix ch) ≠ head (prefix child)) →
  static_children (cs ++ [child]).
Proof.
  intros [Hk Hnd] Hkind Hne Hfresh. split.
  - intros c [Hc| ->%list_elem_of_singleton]%elem_of_app; [by apply Hk|done].
  - rewrite fmap_app. apply NoDup_app. split; [done|]. split; [|apply NoDup_singleton].
    intros y (c & -> & Hc)%list_elem_of_fmap Heq%list_elem_of_singleton.
    by eapply Hfresh.
Qed.

(** Step 3: descent into a static child, or a new static child. *)
Lemma add_static_ok b pre k cs hd cnt x rest (h : handle) cs' :
  wf b (Node pre k cs false hd cnt) → k ≠ catch_all →
  (k = parameter → x = "/") →
  boundary_after b pre && wild_start x = false →
  Forall (λ n, ∀ b path (h : handle) n',
            wf b n →
            (nkind n = static → prefix n = [] ∨ head path = head (prefix n)) →
            addRoute_at n b path h = Ok n' → add_ok b n path h n') cs →
  update_child (λ ch, addRoute_at ch (boundary_after b pre) (x :: rest) h)
    (insertChild (length (x :: rest)) (boundary_after b pre) (x :: rest) h) x cs
  = Ok cs' →
  add_ok b (Node pre k cs false hd cnt) (pre ++ x :: rest) h
    (Node pre k (reorder cs') false hd (cnt + 1)).
Proof.
  intros [Hshape Hcs]%wf_inv Hk Hparam Hb IH Hupd.
  assert (Hstatic : static_children cs).
  { destruct k; [by destruct Hshape|by destruct Hshape as (_ & _ & _ & ? & _)|done]. }
  assert (Hshape' : ∀ cs', static_children cs' →
            (∀ c, c ∈ cs' → head (prefix c) = Some x ∨ c ∈ cs) →
            shape b pre k (reorder cs') false hd).
  { intros cs0 Hst Hin. destruct k; [| |done].
    - destruct Hshape as [? _]. split; [done|]. by apply static_children_reorder.
    - destruct Hshape as (? & ? & ? & _ & Hslash). split_and!; try done.
      + by apply static_children_reorder.
      + intros c Hc%elem_of_reorder_1. destruct (Hin c Hc) as [->|?]; [|by apply Hslash].
        by rewrite Hparam. }
  apply update_child_ok in Hupd
    as [(l1 & ch & l2 & ch' & -> & Hhead & Hdesc & ->)|(child & Hfresh & Hchild & ->)].
  - assert (Hch : ch ∈ l1 ++ ch :: l2) by (apply elem_of_app; right; by left).
    rewrite Forall_forall in IH.
    assert (Hpc : nkind ch = static →
              prefix ch = [] ∨ head (x :: rest) = head (prefix ch))
      by (intros _; right; by rewrite Hhead).
    destruct (IH ch Hch _ _ _ _ (Hcs ch Hch) Hpc Hdesc)
      as (Hwf' & Hadd & Hkind & Hhead').
    destruct Hstatic as [Hst1 Hst2]. destruct (Hst1 ch Hch) as [Hchk _].
    assert (Hstatic' : static_children (l1 ++ ch' :: l2)).
    { apply (static_children_replace l1 ch); [done|congruence|done]. }
    split_and!; [| |done|done].
    + constructor.
      * apply Hshape'; [done|].
        intros c [Hc|[->|Hc]%elem_of_cons]%elem_of_app.
        -- right. apply elem_of_app. by left.
        -- left. congruence.
        -- right. apply elem_of_app. right. by right.
      * intros c [Hc|[->|Hc]%elem_of_cons]%elem_of_reorder_1%elem_of_app; [|done|].
        -- apply Hcs. apply elem_of_app. by left.
        -- apply Hcs. apply elem_of_app. right. by right.
    + intros pat h'. rewrite !elem_of_routes. split.
      * intros [?|(c & sub & Hc & Hsub & ->)]; [by right; left|].
        rewrite elem_of_reorder in Hc.
        apply elem_of_app in Hc as [Hc|[->|Hc]%elem_of_cons].
        -- right; right. exists c, sub. split; [|done]. apply elem_of_app. by left.
        -- apply Hadd in Hsub as [[-> ->]|Hsub]; [by left|].
           right; right. by exists ch, sub.
        -- right; right. exists c, sub. split; [|done].
           apply elem_of_app. right. by right.
      * intros [[-> ->]|[?|(c & sub & Hc & Hsub & ->)]].
        -- right. exists ch', (x :: rest). rewrite elem_of_reorder.
           split; [apply elem_of_app; right; by left|].
           split; [|done]. apply Hadd. by left.
        -- by left.
        -- right. apply elem_of_app in Hc as [Hc|[->|Hc]%elem_of_cons].
           ++ exists c, sub. rewrite elem_of_reorder. split; [|done].
              apply elem_of_app. by left.
           ++ exists ch', sub. rewrite elem_of_reorder.
              split; [apply elem_of_app; right; by left|].
              split; [|done]. apply Hadd. by right.
           ++ exists c, sub. rewrite elem_of_reorder. split; [|done].
              apply elem_of_app. right. by right.
  - apply insertChild_ok in Hchild as (Hcwf & Hroute & Hchead & Hckind); [|done].
    assert (Hck : nkind child = static) by (apply Hckind; by intros ? [= <-]).
    assert (Hstatic' : static_children (cs ++ [child])).
    { apply static_children_snoc; [done|done|by destruct (prefix child)|].
      intros ch Hc. rewrite Hchead. by apply Hfresh. }
    split_and!; [| |done|done].
    + constructor.
      * apply Hshape'; [done|].
        intros c [Hc| ->%list_elem_of_singleton]%elem_of_app; [by right|by left].
      * intros c [Hc| ->%list_elem_of_singleton]%elem_of_reorder_1%elem_of_app;
          [by apply Hcs|done].
    + intros pat h'. rewrite !elem_of_routes. split.
      * intros [?|(c & sub & Hc & Hsub & ->)]; [by right; left|].
        rewrite elem_of_reorder in Hc.
        apply elem_of_app in Hc as [Hc| ->%list_elem_of_singleton].
        -- right; right. by exists c, sub.
        -- apply Hroute in Hsub as [-> ->]. by left.
      * intros [[-> ->]|[?|(c & sub & Hc & Hsub & ->)]].
        -- right. exists child, (x :: rest). rewrite elem_of_reorder.
           split; [apply elem_of_app; right; by apply list_elem_of_singleton|].
           split; [by apply Hroute|done].
        -- by left.
        -- right. exists c, sub. rewrite elem_of_reorder. split; [|done].
           apply elem_of_app. by left.
Qed.

Theorem addRoute_at_ok n : ∀ b path (h : handle) n',
  wf b n →
  (nkind n = static → prefix n = [] ∨ head path = head (prefix n)) →
  addRoute_at n b path h = Ok n' → add_ok b n path h n'.
Proof.
  induction n as [pre k cs wild hd cnt IHcs] using node_induction.
  intros b path h n' Hwf Hpre Hadd.
  cbn [addRoute_at] in Hadd. cbn [nkind prefix] in Hpre.
  pose proof (lcp_split path pre) as Hpath.
  pose proof (lcp_le_r path pre) as Hle.
  set (i := lcp path pre) in *.
  destruct (decide (i < length pre)) as [Hlt|Hge].
  - destruct k; try done.
    assert (Hne : pre ≠ []) by (intros ->; simpl in Hlt; lia).
    destruct (Hpre eq_refl) as [?|Hhead]; [done|].
    assert (1 ≤ i).
    { destruct pre as [|y pre]; [done|]. by apply (lcp_head _ _ y). }
    rewrite <-(take_drop i pre) at 1. rewrite <-(take_drop i pre) in Hwf. rewrite Hpath.
    apply add_split_ok; [| | |done|done].
    + intros Ht%(f_equal length). rewrite length_take in Ht. simpl in Ht. lia.
    + intros Hd%(f_equal length). rewrite length_drop in Hd. simpl in Hd. lia.
    + intros x y Hx Hy. destruct (drop i path) as [|x' ?] eqn:H1; [done|].
      destruct (drop i pre) as [|y' ?] eqn:H2; [done|].
      injection Hx as ->. injection Hy as ->. by eapply lcp_differ.
  - assert (i = length pre) as Hi by lia.
    rewrite Hi, take_ge in Hpath by lia. rewrite Hi in Hadd. rewrite Hpath.
    destruct (drop (length pre) path) as [|x rest].
    + rewrite app_nil_r. destruct hd; [done|]. injection Hadd as <-.
      by apply add_handler_ok.
    + destruct (decide (k = catch_all)) as [->|Hk]; [done|].
      assert (Hadd' :
        (if bool_decide (k = parameter) && negb (Ascii.eqb x "/")
         then Panic conflict_wildcard
         else
           if wild then
             match cs with
             | child :: cs' =>
                 do child' <- addRoute_at child (boundary_after b pre) (x :: rest) h;
                 Ok (Node pre k (child' :: cs') true hd (cnt + 1))
             | [] => Panic oob
             end
           else if boundary_after b pre && wild_start x then
             match cs with
             | [] =>
                 do child <- insertChild (length (x :: rest)) (boundary_after b pre)
                               (x :: rest) h;
                 Ok (Node pre k [child] true hd (cnt + 1))
             | _ => Panic conflict_static
             end
           else
             do cs' <- update_child
                         (λ ch, addRoute_at ch (boundary_after b pre) (x :: rest) h)
                         (insertChild (length (x :: rest)) (boundary_after b pre)
                            (x :: rest) h) x cs;
             Ok (Node pre k (reorder cs') false hd (cnt + 1))) = Ok n')
        by by destruct k.
      clear Hadd.
      destruct (bool_decide (k = parameter) && negb (Ascii.eqb x "/")) eqn:Hparam;
        [done|].
      destruct wild.
      * destruct cs as [|child cs']; [done|].
        destruct (addRoute_at child _ _ h) as [child'| |] eqn:Hchild; try done.
        injection Hadd' as <-. apply add_wild_ok; [done|].
        apply Forall_cons in IHcs as [IHchild _].
        destruct (wf_inv _ _ _ _ _ _ _ Hwf) as [Hshape Hcs].
        apply IHchild; [apply Hcs; by left| |done].
        intros Hstatic. destruct k; [|by destruct Hshape as (_ & _ & [=] & _)..].
        destruct Hshape as (_ & (c0 & [= <- _] & Hck) & _). done.
      * destruct (boundary_after b pre && wild_start x) eqn:Hb.
        -- destruct cs; [|done].
           destruct (insertChild _ _ _ h) as [child| |] eqn:Hchild; try done.
           injection Hadd' as <-. by apply add_new_wild_ok.
        -- destruct (update_child _ _ x cs) as [cs'| |] eqn:Hupd; try done.
           injection Hadd' as <-. apply add_static_ok; try done.
           intros ->. simpl in Hparam.
           by destruct (Ascii.eqb_spec x "/").
Qed.

(** ** Lookup finds every stored route *)

Lemma declared_none b (s : bytes) : split_wild b s = None → declared b s = [].
Proof.
  intros H. rewrite <-(app_nil_r s). by rewrite declared_static.
Qed.

Lemma declared_wildcard w (name sub : bytes) :
  wild_start w = true → ("/" ∉ name) → head sub = None ∨ head sub = Some "/" →
  declared true (w :: name ++ sub)
  = param name (if Ascii.eqb w "*" then "/" :: w :: name else w :: name)
    :: declared false sub.
Proof.
  intros Hw Hname Hsub. cbn [declared]. rewrite Hw. cbn [andb].
  rewrite (segment_app name sub) by done. cbn [app]. f_equal.
  assert (Ascii.eqb w "/" = false) as ->.
  { by destruct (wild_start_cases w Hw) as [[-> _]|[-> _]]. }
  rewrite declared_static by by apply split_wild_slash_free.
  by rewrite boundary_after_slash_free.
Qed.

Lemma declared_wildcard_end w (name : bytes) :
  wild_start w = true → ("/" ∉ name) →
  declared true (w :: name)
  = [param name (if Ascii.eqb w "*" then "/" :: w :: name else w :: name)].
Proof.
  intros Hw Hname.
  pose proof (declared_wildcard w name [] Hw Hname ltac:(by left)) as H.
  by rewrite app_nil_r in H.
Qed.

Lemma segment_id (s : bytes) : ("/" ∉ s) → segment s = s.
Proof.
  intros Hs. pose proof (segment_app s [] Hs ltac:(by left)) as H.
  by rewrite app_nil_r in H.
Qed.

Lemma routes_prefix c sub (h : handle) :
  (sub, h) ∈ routes c → ∃ s, sub = prefix c ++ s.
Proof.
  destruct c as [pre k cs wild hd cnt].
  intros [[-> _]|(c' & s & _ & _ & ->)]%elem_of_routes; cbn [prefix].
  - exists []. by rewrite app_nil_r.
  - by exists s.
Qed.

Lemma getValue_static_miss c x y (p rest : bytes) :
  nkind c = static → prefix c = y :: p → x ≠ y →
  ∃ t, getValue c (x :: rest) = (None, [], t).
Proof.
  destruct c as [pre k cs wild hd cnt]. cbn [nkind prefix]. intros -> -> Hne.
  cbn [getValue]. rewrite strip_prefix_differ by done. eauto.
Qed.

Lemma first_match_found (look : node handle → option handle * Params * bool)
    t0 cs c h ps t :
  NoDup ((λ c, head (prefix c)) <$> cs) → c ∈ cs →
  look c = (Some h, ps, t) →
  (∀ c', c' ∈ cs → head (prefix c') ≠ head (prefix c) →
         ∃ t', look c' = (None, [], t')) →
  first_match look t0 cs = (Some h, ps, false).
Proof.
  intros Hnd Hc Hlook Hmiss.
  induction cs as [|c0 cs IH]; [by apply elem_of_nil in Hc|].
  rewrite fmap_cons in Hnd. apply NoDup_cons in Hnd as [Hc0 Hnd].
  cbn [first_match].
  destruct (look c0) as [[[h0|] ps0] t1] eqn:Hlook0.
  - apply elem_of_cons in Hc as [->|Hc]; [congruence|].
    destruct (Hmiss c0) as [t' Ht']; [by left| |congruence].
    intros Heq. apply Hc0. rewrite Heq. apply list_elem_of_fmap. eauto.
  - apply elem_of_cons in Hc as [->|Hc]; [congruence|].
    change ((fix go (cs0 : list (node handle)) := _) cs)
      with (first_match look t0 cs).
    rewrite IH; [done|done|done|].
    intros c' Hc'. apply Hmiss. by right.
Qed.

Lemma children_found b' cs c sub (h : handle) t0 :
  NoDup ((λ c, head (prefix c)) <$> cs) →
  (∀ c', c' ∈ cs → nkind c' = static ∧ prefix c' ≠ []) ∨ cs = [c] →
  c ∈ cs → prefix c ≠ [] → (sub, h) ∈ routes c →
  getValue c sub = (Some h, declared b' sub, false) →
  first_match (λ ch, getValue ch sub) t0 cs = (Some h, declared b' sub, false).
Proof.
  intros Hnd Hkinds Hc Hpre Hsub Hlook.
  eapply first_match_found; [done|done|done|].
  intros c' Hc' Hne.
  destruct Hkinds as [Hst| ->]; [|by apply list_elem_of_singleton in Hc' as ->].
  destruct (Hst c' Hc') as [Hk' Hp'].
  destruct (routes_prefix _ _ _ Hsub) as [s ->].
  destruct (prefix c) as [|x p] eqn:Hcp; [done|].
  destruct (prefix c') as [|y p'] eqn:Hcp'; [done|].
  eapply getValue_static_miss; [done|done|]. intros ->. done.
Qed.

Theorem getValue_route n : ∀ b pat (h : handle),
  wf b n → (pat, h) ∈ routes n →
  getValue n pat = (Some h, declared b pat, false).
Proof.
  induction n as [pre k cs wild hd cnt IHcs] using node_induction.
  intros b pat h [Hshape Hcs]%wf_inv Hin.
  rewrite Forall_forall in IHcs.
  apply elem_of_routes in Hin as [[-> ->]|(c & sub & Hc & Hsub & ->)].
  - (* the route ends at this node *)
    destruct k; cbn [getValue].
    + destruct Hshape as [Hsplit _].
      rewrite strip_prefix_refl. by rewrite declared_none.
    + destruct Hshape as (-> & (name & -> & Hname) & _).
      rewrite segment_id by (apply not_elem_of_cons; by split).
      rewrite drop_all. cbn [drop].
      by rewrite declared_wildcard_end.
    + destruct Hshape as (-> & (name & -> & Hname) & _).
      by rewrite declared_wildcard_end.
  - (* the route continues below a child *)
    pose proof (IHcs c Hc _ _ _ (Hcs c Hc) Hsub) as Hlook.
    destruct k; cbn [getValue].
    + destruct Hshape as [Hsplit Hkids].
      rewrite strip_prefix_app, declared_static by done.
      assert (Hfound : ∀ t0, first_match (λ ch, getValue ch sub) t0 cs
                = (Some h, declared (boundary_after b pre) sub, false)).
      { intros t0. destruct wild.
        - destruct Hkids as [(c0 & -> & Hck) Hb].
          apply list_elem_of_singleton in Hc as ->.
          eapply children_found; [apply NoDup_singleton|by right| |
                                  |done|done]; [by left|].
          specialize (Hcs c0 ltac:(by left)). rewrite Hb in Hcs.
          destruct c0 as [pre0 k0 ? ? ? ?]. apply wf_inv in Hcs as [Hs0 _].
          cbn [nkind prefix] in *.
          destruct k0; [done|by destruct Hs0 as (_ & (? & -> & _) & _)..].
        - destruct Hkids as [Hst Hnd].
          eapply children_found; [done|by left|done|by apply Hst|done|done]. }
      destruct sub as [|x sub']; [|apply Hfound].
      destruct (routes_prefix _ _ _ Hsub) as [s Hs].
      assert (prefix c ≠ []); [|by destruct (prefix c)].
      destruct wild.
      * destruct Hkids as [(c0 & -> & Hck) Hb].
        apply list_elem_of_singleton in Hc as ->.
        specialize (Hcs c0 ltac:(by left)).
        destruct c0 as [pre0 k0 ? ? ? ?]. apply wf_inv in Hcs as [Hs0 _].
        cbn [nkind prefix] in *.
        destruct k0; [done|by destruct Hs0 as (_ & (? & -> & _) & _)..].
      * by apply Hkids.
    + destruct Hshape as (-> & (name & -> & Hname) & _ & [Hst Hnd] & Hslash).
      specialize (Hslash c Hc). destruct (routes_prefix _ _ _ Hsub) as [s ->].
      destruct (prefix c) as [|x p] eqn:Hp; [done|]. injection Hslash as ->.
      rewrite (segment_app (":" :: name) (("/" :: p) ++ s));
        [|apply not_elem_of_cons; by split|by right].
      rewrite drop_app_length. cbn [app drop].
      rewrite boundary_after_cons, boundary_after_slash_free in Hlook by done.
      erewrite children_found;
        [|done|by left|done|by rewrite Hp|done|exact Hlook].
      by rewrite (declared_wildcard ":" name ("/" :: p ++ s)) by (done || by right).
    + destruct Hshape as (_ & _ & _ & -> & _). by apply elem_of_nil in Hc.
Qed.

(** ** Insertion never exhausts its budget *)

Lemma insertChild_total fuel : ∀ b path (h : handle),
  length path ≤ fuel → insertChild fuel b path h ≠ Timeout.
Proof.
  induction fuel as [fuel IH] using lt_wf_ind. intros b path h Hfuel.
  assert (Hunfold : insertChild fuel b path h =
    match split_wild b path with
    | None => Ok (Node path static [] false (Some h) 1)
    | Some (text, w, r) =>
        do wc <- wildcard_node
                   (λ rest, match fuel with
                            | 0 => Timeout
                            | S fuel' => insertChild fuel' false rest h
                            end) w r h;
        Ok (wrap_static text wc)
    end) by by destruct fuel.
  rewrite Hunfold. clear Hunfold.
  destruct (split_wild b path) as [[[text w] r]|] eqn:Hsplit; [|done].
  apply split_wild_Some in Hsplit as (-> & _).
  rewrite length_app in Hfuel. cbn [length] in Hfuel.
  unfold wildcard_node.
  destruct (segment_rest r) as [Hr _].
  set (name := segment r) in *. set (rest := drop (length name) r) in *.
  assert (length rest ≤ length r).
  { apply (f_equal length) in Hr. rewrite length_app in Hr. lia. }
  destruct (Ascii.eqb w "*"); destruct rest as [|x rest'] eqn:Hrest; try done.
  destruct fuel as [|fuel]; [lia|].
  specialize (IH fuel ltac:(lia) false (x :: rest') h ltac:(lia)).
  by destruct (insertChild fuel false (x :: rest') h).
Qed.

Lemma update_child_total descend fresh x cs :
  Forall (λ ch : node handle, descend ch ≠ Timeout) cs → fresh ≠ Timeout →
  update_child descend fresh x cs ≠ Timeout.
Proof.
  intros Hcs Hfresh. induction Hcs as [|ch cs Hch _ IH]; simpl.
  - by destruct fresh.
  - case_bool_decide; [by destruct (descend ch)|].
    by destruct (update_child descend fresh x cs).
Qed.

Theorem addRoute_at_total n : ∀ b path (h : handle),
  addRoute_at n b path h ≠ Timeout.
Proof.
  induction n as [pre k cs wild hd cnt IHcs] using node_induction.
  intros b path h. cbn [addRoute_at].
  set (i := lcp path pre). destruct (drop i path) as [|x rest'] eqn:Hrest.
  - case_decide; [by destruct k|by destruct hd].
  - case_decide.
    + destruct k; try done. destruct (_ && _); [done|].
      destruct (insertChild _ _ (x :: rest') h) eqn:Hi; try done.
      by apply insertChild_total in Hi.
    + assert (Hbody :
        (if bool_decide (k = parameter) && negb (Ascii.eqb x "/")
         then Panic conflict_wildcard
         else
           if wild then
             match cs with
             | child :: cs' =>
                 do child' <- addRoute_at child (boundary_after b pre) (x :: rest') h;
                 Ok (Node pre k (child' :: cs') true hd (cnt + 1))
             | [] => Panic oob
             end
           else if boundary_after b pre && wild_start x then
             match cs with
             | [] =>
                 do child <- insertChild (length (x :: rest')) (boundary_after b pre)
                               (x :: rest') h;
                 Ok (Node pre k [child] true hd (cnt + 1))
             | _ => Panic conflict_static
             end
           else
             do cs' <- update_child
                         (λ ch, addRoute_at ch (boundary_after b pre) (x :: rest') h)
                         (insertChild (length (x :: rest')) (boundary_after b pre)
                            (x :: rest') h) x cs;
             Ok (Node pre k (reorder cs') false hd (cnt + 1))) ≠ Timeout);
        [|by destruct k].
      destruct (_ && negb _); [done|]. destruct wild.
      * destruct cs as [|child cs']; [done|].
        apply Forall_cons in IHcs as [IHchild _].
        specialize (IHchild (boundary_after b pre) (x :: rest') h).
        by destruct (addRoute_at child _ _ h).
      * destruct (_ && _).
        -- destruct cs; [|done].
           destruct (insertChild _ _ (x :: rest') h) eqn:Hi; try done.
           by apply insertChild_total in Hi.
        -- destruct (update_child _ _ x cs) eqn:Hupd; try done.
           apply update_child_total in Hupd; [done| |by apply insertChild_total].
           eapply Forall_impl; [exact IHcs|]. intros ch Hch. apply Hch.
Qed.

Lemma router_inv_New : router_inv (handle:=handle) [] New.
Proof. intros method. cbn. rewrite lookup_empty. intros ?? ?%elem_of_nil. done. Qed.

Lemma register_inv regs r method path (h : handle) r' :
  router_inv regs r → register r method path h = Ok r' →
  router_inv (regs ++ [(method, path, h)]) r'.
Proof.
  intros Hinv. unfold register, Handle.
  destruct (index _ 0) as [c| |]; cbn [obind]; try done.
  destruct (negb _); [done|].
  destruct (addRoute _ _ h) as [root'| |] eqn:Hadd; cbn [obind]; try done.
  intros [= <-].
  set (root := default new_node (trees r !! method)) in *.
  assert (Hroot : wf false root ∧ prefix root = []
            ∧ ∀ pat h', (pat, h') ∈ routes root ↔
                ∃ path', (method, path', h') ∈ regs ∧ pat = list_ascii_of_string path').
  { specialize (Hinv method). unfold root.
    destruct (trees r !! method) as [root0|]; [done|]. cbn [default].
    split; [apply wf_new_node|]. split; [done|]. intros pat h'.
    rewrite routes_new_node. split; [by intros ?%elem_of_nil|].
    intros (path' & Hin & _). by apply Hinv in Hin. }
  destruct Hroot as (Hwf & Hpre & Hroutes).
  apply addRoute_at_ok in Hadd as (Hwf' & Hadded & _ & Hhead); [|done|by left].
  intros method'. cbn [trees set_tree].
  destruct (decide (method = method')) as [<-|Hne].
  - rewrite lookup_insert_eq. split; [done|]. split.
    { rewrite Hpre in Hhead. by destruct (prefix root'). }
    intros pat h'. rewrite (Hadded pat h'), (Hroutes pat h'). split.
    + intros [[-> ->]|(path' & Hin & ->)].
      * exists path. split; [|done]. apply elem_of_app. right. by left.
      * exists path'. split; [|done]. apply elem_of_app. by left.
    + intros (path' & [Hin|[= -> ->]%list_elem_of_singleton]%elem_of_app & ->);
        [right; eauto|by left].
  - rewrite lookup_insert_ne by done. specialize (Hinv method').
    destruct (trees r !! method') as [root0|].
    + destruct Hinv as (? & ? & Hr). split_and!; [done..|].
      intros pat h'. rewrite Hr. split.
      * intros (path' & Hin & ->). exists path'. split; [|done].
        apply elem_of_app. by left.
      * intros (path' & [Hin|[= -> _ _]%list_elem_of_singleton]%elem_of_app & ->);
          [eauto|done].
    + intros path' h' [Hin|[= -> _ _]%list_elem_of_singleton]%elem_of_app;
        [by apply Hinv in Hin|done].
Qed.

Lemma register_all_inv (regs : list (string * string * handle)) : ∀ done r r',
  router_inv done r → register_all regs r = Ok r' →
  router_inv (done ++ regs) r'.
Proof.
  induction regs as [|[[method path] h] regs IH]; intros done r r' Hinv; simpl.
  - intros [= <-]. by rewrite app_nil_r.
  - destruct (register r method path h) as [r1| |] eqn:Hreg; try done.
    cbn [obind]. intros Hall.
    rewrite (cons_middle _ done regs), app_assoc.
    eapply IH; [|done]. by eapply register_inv.
Qed.

Lemma register_total r method path (h : handle) :
  register r method path h ≠ Timeout.
Proof.
  unfold register, Handle.
  destruct (index _ 0) as [c| |] eqn:Hc; cbn [obind]; try done.
  { destruct (negb _); [done|].
    pose proof (addRoute_at_total (default new_node (trees r !! method)) false
                  (list_ascii_of_string path) h) as Ht.
    unfold addRoute. by destruct (addRoute_at _ _ _ h). }
  unfold index in Hc. by destruct (_ !! 0).
Qed.

Lemma register_all_total (regs : list (string * string * handle)) :
  ∀ r, register_all regs r ≠ Timeout.
Proof.
  induction regs as [|[[method path] h] regs IH]; intros r; simpl; [done|].
  pose proof (register_total r method path h).
  destruct (register r method path h); try done. apply IH.
Qed.

End RouteTreeFacts.

(** ** The modelled tree on the examples of the design document *)

Example tree_conflicting_names :
  register_all [("GET", "/user/:id", 1); ("GET", "/user/:name", 2)]%string New
  = Panic conflict_wildcard.
Proof. by vm_compute. Qed.

Example tree_catch_all_not_last :
  register_all [("GET", "/files/*rest", 1); ("GET", "/files/*rest/more", 2)]%string New
  = Panic conflict_catch_all.
Proof. by vm_compute. Qed.

Example tree_duplicate_route :
  register_all [("GET", "/user/:id", 1); ("GET", "/user/:id", 2)]%string New
  = Panic conflict_duplicate.
Proof. by vm_compute. Qed.

Example tree_static_next_to_wildcard :
  register_all [("GET", "/user/:id", 1); ("GET", "/user/new", 2)]%string New
  = Panic conflict_wildcard
  ∧ register_all [("GET", "/user/new", 1); ("GET", "/user/:id", 2)]%string New
    = Panic conflict_static.
Proof. by vm_compute. Qed.

Example tree_catch_all_values :
  ∃ r, register_all [("GET", "/files/*filepath", 1)]%string New = Ok r
       ∧ lookup r "GET" "/files/"
         = (Some 1, [{| Key := "filepath"; Value := "/" |}], false)
       ∧ lookup r "GET" "/files/LICENSE"
         = (Some 1, [{| Key := "filepath"; Value := "/LICENSE" |}], false)
       ∧ lookup r "GET" "/files" = (None, [], true).
Proof. eexists. split; [vm_compute; reflexivity|]. by vm_compute. Qed.

Example tree_parameter_values :
  ∃ r, register_all [("GET", "/blog/:category/:post", 1)]%string New = Ok r
       ∧ lookup r "GET" "/blog/go/request-routers"
         = (Some 1, [{| Key := "category"; Value := "go" |};
                     {| Key := "post"; Value := "request-routers" |}], false)
       ∧ lookup r "GET" "/blog/go/request-routers/" = (None, [], true)
       ∧ lookup r "GET" "/blog/go/" = (None, [], false)
       ∧ lookup r "GET" "/blog/go/request-routers/comments" = (None, [], false).
Proof. eexists. split; [vm_compute; reflexivity|]. by vm_compute. Qed.

Example tree_trailing_slash_hint :
  (∃ r, register_all [("GET", "/foo", 1)]%string New = Ok r
        ∧ lookup r "GET" "/foo/" = (None, [], true))
  ∧ (∃ r, register_all [("GET", "/foo/", 1)]%string New = Ok r
          ∧ lookup r "GET" "/foo" = (None, [], true)).
Proof. split; (eexists; split; [vm_compute; reflexivity|]); by vm_compute. Qed.

(** ** [CleanPath] on strings *)

Lemma CleanPath_reference p : CleanPath p = Ok (normalize_trailing p).
Proof. unfold CleanPath. by rewrite CleanPath_bytes_reference. Qed.

Lemma string_of_list_ascii_inj (a b : bytes) :
  string_of_list_ascii a = string_of_list_ascii b → a = b.
Proof.
  intros H. apply (f_equal list_ascii_of_string) in H.
  by rewrite !list_ascii_of_string_of_list_ascii in H.
Qed.

Lemma final_segment_bytes p (seg : bytes) :
  final_segment p = Some (string_of_list_ascii seg) →
  last (split_slash (list_ascii_of_string p)) = Some seg.
Proof.
  unfold final_segment, segments. rewrite fmap_last.
  destruct (last _) as [s|]; [|done]. intros [= H%string_of_list_ascii_inj].
  by rewrite H.
Qed.

(** * The claims *)

Local Open Scope string_scope.

(** C1 as stated (spec-modelled tree): the parameters captured by the
    lookup of a registered pattern are its literal segments.  This fails
    for a catch-all, which captures the slash in front of its segment as
    well. *)
Lemma lookup_registered_counterexample :
  ∃ r, register_all [("GET", "/files/*filepath", 1)] New = Ok r
       ∧ lookup r "GET" "/files/*filepath"
         = (Some 1, [{| Key := "filepath"; Value := "/*filepath" |}], false)
       ∧ segment_params "/files/*filepath"
         = [{| Key := "filepath"; Value := "*filepath" |}]
       ∧ lookup r "GET" "/files/*filepath"
         ≠ (Some 1, segment_params "/files/*filepath", false).
Proof.
  eexists. split; [vm_compute; reflexivity|].
  split_and!; [by vm_compute..|]. vm_compute. discriminate.
Qed.

(** C1 (amended, spec-modelled tree): after any sequence of registrations
    that all succeed on a fresh router, looking up each registered path
    under its method returns the handler registered for it, no redirect
    hint, and the parameters declared in the pattern from left to right: a
    named parameter with the literal segment of the looked-up path, a
    catch-all with its literal segment behind the slash that precedes it.
    Registration never runs out of its loop budget, so a sequence that
    fails is one that hit a conflict. *)
Theorem lookup_registered {handle} (regs : list (string * string * handle)) :
  register_all regs New ≠ Timeout
  ∧ ∀ r, register_all regs New = Ok r →
      ∀ method path h, (method, path, h) ∈ regs →
        lookup r method path = (Some h, literal_params path, false).
Proof.
  split; [apply register_all_total|].
  intros r Hreg method path h Hin.
  pose proof (register_all_inv regs [] New r router_inv_New Hreg method) as Hinv.
  cbn [app] in Hinv. unfold lookup, Lookup, literal_params.
  destruct (trees r !! method) as [root|]; [|by apply Hinv in Hin].
  destruct Hinv as (Hwf & _ & Hroutes).
  rewrite <-(declared_segments false). apply getValue_route; [done|].
  apply Hroutes. eauto.
Qed.

Lemma lookup_registered_witness :
  ∃ r, register_all [("GET", "/user/:id/posts/:post", 1); ("GET", "/files/*filepath", 2);
                     ("POST", "/user/:id", 3)] New = Ok r
       ∧ lookup r "GET" "/user/:id/posts/:post"
         = (Some 1, [{| Key := "id"; Value := ":id" |};
                     {| Key := "post"; Value := ":post" |}], false).
Proof.
  assert (H : ∃ r, register_all
                     [("GET", "/user/:id/posts/:post", 1); ("GET", "/files/*filepath", 2);
                      ("POST", "/user/:id", 3)] New = Ok r)
    by (eexists; vm_compute; reflexivity).
  destruct H as [r H]. exists r. split; [exact H|].
  apply (proj2 (lookup_registered _) r H "GET" "/user/:id/posts/:post" 1).
  apply list_elem_of_here.
Defined.

(** C2 as stated: [CleanPath] equals the reference that splits at slashes,
    drops empty and [.] segments, lets [..] remove the last kept segment
    and rejoins the kept segments under a leading slash.  This fails on an
    input whose final segment is [.] and on an input that ends in a
    slash: the code keeps a trailing slash there. *)
Lemma CleanPath_as_stated_counterexample :
  (CleanPath "/a/." = Ok "/a/"
   ∧ normalize_as_stated "/a/." = "/a"
   ∧ CleanPath "/a/." ≠ Ok (normalize_as_stated "/a/."))
  ∧ (CleanPath "//a//b/" = Ok "/a/b/"
     ∧ normalize_as_stated "//a//b/" = "/a/b"
     ∧ CleanPath "//a//b/" ≠ Ok (normalize_as_stated "//a//b/")).
Proof. split; (split_and!; [by vm_compute..|]); vm_compute; discriminate. Qed.

(** C2 (amended): for every input, [CleanPath] returns the reference
    normalisation completed by the trailing-slash rule: when at least one
    segment is kept and the input is longer than one byte and ends in a
    slash, or its final segment is [.], the result ends in a slash. *)
Theorem CleanPath_refines_reference p : CleanPath p = Ok (normalize_trailing p).
Proof. apply CleanPath_reference. Qed.

(** C3: [CleanPath] is idempotent. *)
Theorem CleanPath_idempotent p :
  ∃ q, CleanPath p = Ok q ∧ CleanPath q = Ok q.
Proof.
  exists (normalize_trailing p). split; [apply CleanPath_reference|].
  rewrite CleanPath_reference. f_equal. unfold normalize_trailing.
  by rewrite list_ascii_of_string_of_list_ascii, reference_idempotent.
Qed.

(** C4: the four test vectors. *)
Theorem CleanPath_vectors :
  CleanPath EmptyString = Ok "/"
  ∧ CleanPath "/a/./b/../c" = Ok "/a/c"
  ∧ CleanPath "//a//b/" = Ok "/a/b/"
  ∧ CleanPath "/../../x" = Ok "/x".
Proof. split_and!; by vm_compute. Qed.

(** C5: registering a path that does not begin with a slash panics, for
    [Handle] and for each of the method shortcuts, whatever the tree
    implementation is. *)
Theorem Handle_panics_without_slash {handle node : Type} (new_node : node)
    (addRoute : node → bytes → handle → outcome node)
    (r : Router node) (method path : string) (h : handle) :
  ¬ begins_with_slash path →
  (∃ msg, Handle new_node addRoute r method path h = Panic msg)
  ∧ (∃ msg, GET new_node addRoute r path h = Panic msg)
  ∧ (∃ msg, HEAD new_node addRoute r path h = Panic msg)
  ∧ (∃ msg, OPTIONS new_node addRoute r path h = Panic msg)
  ∧ (∃ msg, POST new_node addRoute r path h = Panic msg)
  ∧ (∃ msg, PUT new_node addRoute r path h = Panic msg)
  ∧ (∃ msg, PATCH new_node addRoute r path h = Panic msg)
  ∧ (∃ msg, DELETE new_node addRoute r path h = Panic msg).
Proof.
  intros Hpath.
  assert (H : ∀ m, ∃ msg, Handle new_node addRoute r m path h = Panic msg).
  { intros m. unfold Handle, index. rewrite get_list_ascii.
    unfold begins_with_slash in Hpath.
    destruct (String.get 0 path) as [c|]; cbn [obind]; [|eauto].
    destruct (Ascii.eqb_spec c "/") as [->|_]; [done|]. cbn [negb]. eauto. }
  split_and!; apply H.
Qed.

Lemma Handle_panics_without_slash_witness :
  ¬ begins_with_slash "user/:id"
  ∧ ∃ msg, Handle (handle:=nat) new_node addRoute New "GET" "user/:id" 7 = Panic msg.
Proof.
  assert (H : ¬ begins_with_slash "user/:id") by (vm_compute; discriminate).
  split; [exact H|].
  exact (proj1 (Handle_panics_without_slash new_node addRoute New "GET" "user/:id" 7 H)).
Defined.

(** C6: a lookup under a method that has no tree returns no handler, no
    parameters and no redirect hint, whatever the tree implementation is. *)
Theorem Lookup_without_tree {handle node : Type}
    (getValue : node → bytes → option handle * Params * bool)
    (r : Router node) (method path : string) :
  trees r !! method = None →
  Lookup getValue r method path = (None, [], false).
Proof. intros H. unfold Lookup. by rewrite H. Qed.

Lemma Lookup_without_tree_witness :
  Lookup (handle:=nat) getValue New "GET" "/user/7" = (None, [], false).
Proof.
  apply (Lookup_without_tree getValue New "GET" "/user/7"). reflexivity.
Defined.

(** C7: [ByName] returns the value of the first pair whose key is the
    name, also when later pairs carry the same key, and the empty string
    when no pair has that key. *)
Theorem ByName_first_match (ps : Params) (name : string) :
  (∀ (before : Params) (p : Param) (after : Params),
      ps = (before ++ p :: after)%list →
      Forall (λ q, Key q ≠ name) before → Key p = name →
      ByName ps name = Value p)
  ∧ (Forall (λ q, Key q ≠ name) ps → ByName ps name = EmptyString).
Proof.
  split.
  - intros before p after -> Hbefore Hp. by apply ByName_first.
  - apply ByName_absent.
Qed.

Lemma ByName_first_match_witness :
  ByName [{| Key := "a"; Value := "1" |}; {| Key := "id"; Value := "2" |};
          {| Key := "id"; Value := "3" |}] "id" = "2"
  ∧ ByName [{| Key := "a"; Value := "1" |}] "id" = EmptyString.
Proof.
  split.
  - apply (proj1 (ByName_first_match _ "id")
             [{| Key := "a"; Value := "1" |}] {| Key := "id"; Value := "2" |}
             [{| Key := "id"; Value := "3" |}]); [reflexivity| |reflexivity].
    repeat constructor. vm_compute. discriminate.
  - apply (proj2 (ByName_first_match _ "id")).
    repeat constructor. vm_compute. discriminate.
Defined.

(** C8: when the final segment of the input is [.] or the input ends in a
    slash, the result of [CleanPath] ends in a slash. *)
Theorem CleanPath_keeps_trailing_slash p :
  final_segment p = Some "." ∨ ends_in p "/" →
  ∃ q, CleanPath p = Ok q ∧ ends_in q "/".
Proof.
  intros H. exists (normalize_trailing p). split; [apply CleanPath_reference|].
  unfold ends_in, normalize_trailing. rewrite list_ascii_of_string_of_list_ascii.
  apply reference_trailing. destruct H as [H|H]; [left|by right].
  by apply (final_segment_bytes p ["."%char]).
Qed.

Lemma CleanPath_keeps_trailing_slash_witness :
  ∃ q, CleanPath "/a/b/." = Ok q ∧ ends_in q "/".
Proof.
  apply (CleanPath_keeps_trailing_slash "/a/b/."). left. reflexivity.
Defined.

(** C9: a path that begins with a slash and whose segments after it are
    all different from the empty segment, [.] and [..] is returned as it
    is. *)
Theorem CleanPath_canonical_identity p :
  begins_with_slash p →
  Forall (λ seg, seg ≠ EmptyString ∧ seg ≠ "." ∧ seg ≠ "..") (tail (segments p)) →
  CleanPath p = Ok p.
Proof.
  intros Hslash Hsegs. rewrite CleanPath_reference. f_equal.
  unfold normalize_trailing, begins_with_slash, segments in *.
  rewrite <-get_list_ascii in Hslash.
  rewrite <-(string_of_list_ascii_of_string p) at 2.
  destruct (list_ascii_of_string p) as [|c q]; [done|]. injection Hslash as ->.
  f_equal. apply reference_canonical.
  change (split_slash ("/"%char :: q)) with ([] :: split_slash q) in Hsegs.
  cbn [fmap list_fmap tail] in Hsegs.
  apply Forall_fmap in Hsegs. eapply Forall_impl; [exact Hsegs|].
  intros seg (H1 & H2 & H3). cbn in *. split_and!; by intros ->.
Qed.

Lemma CleanPath_canonical_identity_witness : CleanPath "/a/b.c/..d" = Ok "/a/b.c/..d".
Proof.
  apply (CleanPath_canonical_identity "/a/b.c/..d"); [reflexivity|].
  vm_compute. repeat constructor; discriminate.
Defined.

(** C10: [CleanPath] returns on every input, the result begins with a
    slash, and an input that does not begin with a slash gives the result
    of the same input behind a slash. *)
Theorem CleanPath_total_absolute p :
  (∃ s, CleanPath p = Ok (String "/" s))
  ∧ (¬ begins_with_slash p → CleanPath p = CleanPath (String "/" p)).
Proof.
  split.
  - destruct (reference_absolute (list_ascii_of_string p)) as [s Hs].
    exists (string_of_list_ascii s). rewrite CleanPath_reference. f_equal.
    unfold normalize_trailing. by rewrite Hs.
  - intros Hp. rewrite !CleanPath_reference. f_equal. unfold normalize_trailing.
    f_equal. apply reference_relative. by rewrite get_list_ascii.
Qed.

Lemma CleanPath_total_absolute_witness :
  (∃ s, CleanPath "a/../b/" = Ok (String "/" s))
  ∧ CleanPath "a/../b/" = CleanPath "/a/../b/".
Proof.
  split.
  - apply (proj1 (CleanPath_total_absolute "a/../b/")).
  - apply (proj2 (CleanPath_total_absolute "a/../b/")). vm_compute. discriminate.
Defined.

(** * Further properties of the code *)

(** ** Strings and byte lists *)

Lemma list_ascii_app (a b : string) :
  list_ascii_of_string (a ++ b) = (list_ascii_of_string a ++ list_ascii_of_string b)%list.
Proof. induction a as [|c a IH]; simpl; [done|]. by rewrite IH. Qed.

Lemma string_of_list_ascii_app (a b : bytes) :
  string_of_list_ascii (a ++ b)%list
  = (string_of_list_ascii a ++ string_of_list_ascii b)%string.
Proof. induction a as [|c a IH]; simpl; [done|]. by rewrite IH. Qed.

Lemma length_list_ascii (s : string) :
  length (list_ascii_of_string s) = String.length s.
Proof. induction s as [|c s IH]; simpl; [done|]. by rewrite IH. Qed.

Lemma length_string_of_list_ascii (l : bytes) :
  String.length (string_of_list_ascii l) = length l.
Proof. by rewrite <-length_list_ascii, list_ascii_of_string_of_list_ascii. Qed.

Lemma string_app_assoc (a b c : string) : ((a ++ b) ++ c = a ++ b ++ c)%string.
Proof.
  rewrite <-(string_of_list_ascii_of_string ((a ++ b) ++ c)).
  rewrite <-(string_of_list_ascii_of_string (a ++ b ++ c)).
  by rewrite !list_ascii_app, (assoc_L (++)%list).
Qed.

Lemma string_app_nil_r (a : string) : (a ++ EmptyString)%string = a.
Proof.
  rewrite <-(string_of_list_ascii_of_string (a ++ EmptyString)).
  rewrite list_ascii_app. cbn [list_ascii_of_string].
  by rewrite app_nil_r, string_of_list_ascii_of_string.
Qed.

Lemma string_length_app (a b : string) :
  String.length (a ++ b) = String.length a + String.length b.
Proof. by rewrite <-!length_list_ascii, list_ascii_app, length_app. Qed.

(** ** [CleanPath]: size and shape of the result, cleaning in steps *)

Local Close Scope string_scope.

Lemma stored_length p off buf o : stored p off buf o → length o ≤ length p + off.
Proof.
  destruct buf as [b|]; intros [H1 H2]; apply (f_equal length) in H2;
    rewrite length_take in H2; lia.
Qed.

(** At the end of the main loop the kept segments lie in the buffer, or in
    the input, and there is room for a trailing slash where one is due. *)
Lemma clean_output_stored c q :
  let p := (c :: q : bytes) in
  let off := if Ascii.eqb c "/" then 0 else 1 in
  ∃ buf, stored p off buf (join (kept p))
         ∧ (wants_trailing p = true →
            length (join (kept p)) = 1 ∨ length (join (kept p)) < length p + off).
Proof.
  intros p off. unfold off. destruct (Ascii.eqb_spec c "/") as [->|Hc].
  - destruct (clean_loop_spec 0 (length p) p ["/"%char] q [] None)
      as (buf' & r' & t' & _ & _ & Hst & Ht & Hcap);
      [done|simpl; lia|done|done|simpl; lia|by left|].
    rewrite <-kept_leading_slash in *. fold p in Hst, Hcap.
    exists buf'. split; [done|]. intros Hw. apply Hcap. rewrite Ht.
    unfold wants_trailing, init_trailing in *. subst p.
    by rewrite wants_trailing_leading_slash in Hw.
  - destruct (clean_loop_spec 1 (length p) p [] p []
                (Some (<[0:="/"%char]> (make (length p + 1)))))
      as (buf' & r' & t' & _ & _ & Hst & Ht & Hcap);
      [done|done|done| |simpl; lia|by left|].
    { unfold make. split; [by rewrite length_insert, length_replicate|].
      by rewrite Nat.add_1_r. }
    exists buf'. split; [done|]. intros Hw. apply Hcap. by rewrite Ht.
Qed.

Lemma reference_length c q :
  length (reference_normalize_trailing (c :: q))
  ≤ length (c :: q) + (if Ascii.eqb c "/" then 0 else 1).
Proof.
  destruct (clean_output_stored c q) as (buf & Hst & Hcap).
  pose proof (kept_elements (c :: q)) as Hel.
  apply stored_length in Hst. unfold reference_normalize_trailing.
  destruct (kept (c :: q)) as [|seg k] eqn:Hk; [cbn [length]; lia|].
  pose proof (stack_join_length _ _ Hel) as Hlen. unfold join in *.
  destruct (wants_trailing (c :: q)); rewrite length_app.
  - change (length ["/"]) with 1. destruct Hcap as [?|?]; [done|lia|lia].
  - change (length (@nil ascii)) with 0. lia.
Qed.

Lemma reference_segments p :
  ∃ sfx, (sfx = [] ∨ sfx = [[]])
         ∧ split_slash (reference_normalize_trailing p) = ([] :: reverse (kept p)) ++ sfx.
Proof.
  pose proof (kept_elements p) as Hel. unfold reference_normalize_trailing.
  destruct (kept p) as [|seg k] eqn:Hk; [exists [[]]; by split; [right|]|].
  destruct (wants_trailing p).
  - exists [[]]. split; [by right|].
    by rewrite split_slash_render by (done || by right).
  - exists []. split; [by left|].
    by rewrite split_slash_render by (done || by left).
Qed.

Lemma split_slash_app (x b : bytes) :
  split_slash (x ++ "/"%char :: b) = (split_slash x ++ split_slash b)%list.
Proof.
  induction x as [|c x IH]; [done|]. cbn [app split_slash]. rewrite IH.
  destruct (Ascii.eqb c "/"); [done|].
  pose proof (split_slash_nonempty x). by destruct (split_slash x).
Qed.

Lemma kept_app (x b : bytes) :
  kept (x ++ "/"%char :: b) = kept_from (kept x) b.
Proof. unfold kept, kept_from. rewrite split_slash_app. apply fold_left_app. Qed.

Lemma kept_reference p : kept (reference_normalize_trailing p) = kept p.
Proof.
  pose proof (kept_elements p) as Hel. unfold reference_normalize_trailing.
  destruct (kept p) as [|seg k] eqn:Hk; [done|].
  destruct (wants_trailing p); apply kept_render;
    first [done | by left | by right].
Qed.

Lemma wants_trailing_app (x y b : bytes) :
  x ≠ [] → y ≠ [] →
  wants_trailing (x ++ "/"%char :: b) = wants_trailing (y ++ "/"%char :: b).
Proof.
  intros Hx Hy. unfold wants_trailing.
  assert (Hl : ∀ z : bytes, last (z ++ "/"%char :: b) = last ("/"%char :: b)).
  { intros z. rewrite last_app, last_cons. by destruct (last b). }
  rewrite (Hl x), (Hl y), !split_slash_app, !last_app, !length_app. cbn [length].
  destruct (last (split_slash b)) as [l|] eqn:Hlast;
    [|apply last_None in Hlast; by apply split_slash_nonempty in Hlast].
  rewrite (bool_decide_true (1 < length x + _)), (bool_decide_true (1 < length y + _));
    [done| |].
  all: destruct x, y; simpl; try done; lia.
Qed.

Lemma reference_in_steps (a b : bytes) :
  reference_normalize_trailing (a ++ "/"%char :: b)
  = reference_normalize_trailing (reference_normalize_trailing a ++ "/"%char :: b).
Proof.
  assert (Hk : kept (a ++ "/"%char :: b)
               = kept (reference_normalize_trailing a ++ "/"%char :: b))
    by by rewrite !kept_app, kept_reference.
  unfold reference_normalize_trailing at 1 2. rewrite <-Hk.
  destruct (kept (a ++ "/"%char :: b)) as [|seg k] eqn:Hkept; [done|].
  f_equal. destruct a as [|c a].
  - change (reference_normalize_trailing []) with ["/"%char].
    destruct b as [|x b]; [by vm_compute in Hkept|].
    unfold wants_trailing. cbn [app].
    change (split_slash ("/"%char :: "/"%char :: x :: b))
      with ([] :: [] :: split_slash (x :: b)).
    change (split_slash ("/"%char :: x :: b)) with ([] :: split_slash (x :: b)).
    rewrite !last_cons. cbn [length].
    rewrite !bool_decide_true by lia.
    by destruct (last (split_slash (x :: b))), (last b).
  - destruct (reference_absolute (c :: a)) as [s Hs]. rewrite Hs.
    by rewrite (wants_trailing_app (c :: a) ("/"%char :: s) b).
Qed.

Local Open Scope string_scope.

(** X1: the result of [CleanPath] is at most one byte longer than the
    input, and not longer than an input that begins with a slash (the sizes
    of the two buffers that the code allocates). *)
Theorem CleanPath_length p :
  ∃ q, CleanPath p = Ok q
       ∧ (String.length q ≤ String.length p + 1)%nat
       ∧ (begins_with_slash p → (String.length q ≤ String.length p)%nat).
Proof.
  exists (normalize_trailing p). split; [apply CleanPath_reference|].
  unfold normalize_trailing, begins_with_slash.
  rewrite length_string_of_list_ascii, <-length_list_ascii, <-get_list_ascii.
  destruct (list_ascii_of_string p) as [|c q] eqn:Hp; [split; [by vm_compute|done]|].
  pose proof (reference_length c q) as Hlen.
  destruct (Ascii.eqb_spec c "/"%char) as [->|Hc].
  - split; [lia|]. intros _. lia.
  - split; [lia|]. intros [= ->]. done.
Qed.

Lemma CleanPath_length_witness :
  ∃ q, CleanPath "/a/../b" = Ok q
       ∧ (String.length q ≤ String.length "/a/../b")%nat.
Proof.
  destruct (CleanPath_length "/a/../b") as (q & Hq & _ & Hlen).
  exists q. split; [exact Hq|]. apply Hlen. reflexivity.
Defined.

(** X2: the result of [CleanPath] consists of the empty segment in front
    of the leading slash, then segments that are neither empty nor [.] nor
    [..], and at most one empty segment behind a trailing slash. *)
Theorem CleanPath_segments p :
  ∃ q ks, CleanPath p = Ok q
          ∧ Forall (λ seg, seg ≠ EmptyString ∧ seg ≠ "." ∧ seg ≠ "..") ks
          ∧ (segments q = EmptyString :: ks
             ∨ segments q = (EmptyString :: ks ++ [EmptyString])%list).
Proof.
  exists (normalize_trailing p),
    (string_of_list_ascii <$> reverse (kept (list_ascii_of_string p))).
  split; [apply CleanPath_reference|]. split.
  - apply Forall_fmap, Forall_reverse.
    eapply Forall_impl; [apply kept_elements|].
    intros seg (_ & H1 & H2 & H3). cbn.
    split_and!; intros H; [apply H1|apply H2|apply H3];
      by apply string_of_list_ascii_inj.
  - unfold segments, normalize_trailing.
    rewrite list_ascii_of_string_of_list_ascii.
    destruct (reference_segments (list_ascii_of_string p)) as (sfx & [-> | ->] & ->).
    + left. by rewrite app_nil_r.
    + right. by rewrite fmap_app.
Qed.

(** X3: cleaning can be done in steps: cleaning [a/b] gives the same as
    cleaning the cleaned [a] followed by [/b]. *)
Theorem CleanPath_in_steps a b :
  ∃ a', CleanPath a = Ok a'
        ∧ CleanPath (a ++ "/" ++ b) = CleanPath (a' ++ "/" ++ b).
Proof.
  exists (normalize_trailing a). split; [apply CleanPath_reference|].
  rewrite !CleanPath_reference. f_equal. unfold normalize_trailing. f_equal.
  rewrite !list_ascii_app, list_ascii_of_string_of_list_ascii.
  apply reference_in_steps.
Qed.

(** ** [CleanPath] on a clean path: no buffer *)

Local Close Scope string_scope.

Lemma CleanPath_bytes_return p :
  CleanPath_bytes p = (do ret <- CleanPath_return p; returned p ret).
Proof.
  destruct p as [|c q]; [done|]. unfold CleanPath_bytes, CleanPath_return.
  destruct (negb (Ascii.eqb c "/"));
    (destruct (clean_loop _ _ _ _) as [[buf r w t]| |]; cbn [obind]; [|done..]);
    (destruct (t && bool_decide (1 < w)); cbn [obind];
     [destruct (bufApp buf _ w "/") as [[b|]| |]|destruct buf]; done).
Qed.

Lemma copy_element_in_place seg : ∀ pre tl k,
  ("/" ∉ seg) → segment_end tl → length seg ≤ k →
  copy_element k (pre ++ seg ++ tl) (length (pre ++ seg ++ tl)) None
    (length pre) (length pre)
  = Ok (None, length pre + length seg, length pre + length seg).
Proof.
  induction seg as [|c seg IH]; intros pre tl k Hno Htl Hk.
  - rewrite !Nat.add_0_r.
    destruct k; simpl; case_decide as Hr; try done.
    all: destruct Htl as [->|[rest ->]];
      [rewrite length_app in Hr; simpl in Hr; lia|].
    all: by rewrite (index_app_r0 _ _ "/").
  - apply not_elem_of_cons in Hno as [Hc Hseg].
    destruct k as [|k]; [simpl in Hk; lia|].
    change ((c :: seg) ++ tl) with (c :: (seg ++ tl)) in *.
    assert (Hp : pre ++ c :: seg ++ tl = (pre ++ [c]) ++ seg ++ tl)
      by by rewrite <-app_assoc.
    assert (Hlen : length (pre ++ c :: seg ++ tl) = length pre + S (length seg + length tl))
      by (rewrite !length_app; simpl; rewrite length_app; lia).
    simpl in Hk. cbn [copy_element].
    rewrite decide_True by lia.
    rewrite (index_app_r0 _ _ c) by done. cbn [obind].
    destruct (Ascii.eqb_spec c "/") as [?|_]; [done|]. cbn [negb].
    unfold bufApp. rewrite (index_app_r0 _ _ c) by done. cbn [obind].
    rewrite Ascii.eqb_refl. cbn [obind]. rewrite Hp.
    pose proof (IH (pre ++ [c]) tl k Hseg Htl ltac:(lia)) as Hcopy.
    rewrite (length_app pre) in Hcopy. cbn [length] in Hcopy.
    rewrite Hcopy. cbn [length]. do 2 f_equal; [f_equal|]; lia.
Qed.

Lemma step_element_in_place pre seg tl stack t :
  element seg → segment_end tl → Forall element stack →
  pre = render stack ++ ["/"] →
  clean_step (pre ++ seg ++ tl) (length (pre ++ seg ++ tl))
    (CpState None (length pre) (length (join stack)) t)
  = Ok (CpState None (length pre + length seg) (length pre + length seg) t).
Proof.
  intros Hseg Htl Hel Hpre.
  destruct (element_default seg tl pre Hseg Htl) as (c0 & Hc0 & H1 & H2 & H3 & H4).
  unfold clean_step. rewrite Hc0. cbn [obind]. rewrite H1, H2, H3. cbn [obind].
  rewrite H4. cbn [obind].
  pose proof Hseg as (Hno & Hne & _).
  assert (Hslash :
    (if decide (1 < length (join stack))
     then do b <- bufApp None (pre ++ seg ++ tl) (length (join stack)) "/";
          Ok (b, length (join stack) + 1)
     else Ok (None, length (join stack)))
    = Ok (None, length pre)).
  { destruct stack as [|s stack].
    - rewrite Hpre. by rewrite decide_False by (simpl; lia).
    - pose proof (stack_join_length _ _ Hel) as Hlen.
      rewrite decide_True by done. unfold join, bufApp.
      rewrite Hpre, <-!app_assoc.
      rewrite (index_app_r0 _ _ "/") by done. cbn [obind].
      rewrite !length_app. cbn [length]. done. }
  rewrite Hslash. cbn [obind].
  rewrite copy_element_in_place; [done..|].
  rewrite (length_app pre), (length_app seg). lia.
Qed.

Lemma clean_loop_in_place rest :
  clean_rest rest →
  ∀ fuel pre stack t,
    length rest ≤ fuel → Forall element stack → pre = render stack ++ ["/"] →
    ∃ r' w',
      clean_loop fuel (pre ++ rest) (length (pre ++ rest))
        (CpState None (length pre) (length (join stack)) t)
      = Ok (CpState None r' w' t).
Proof.
  induction 1 as [|seg Hseg|seg rest Hseg Hrest IH];
    intros fuel pre stack t Hfuel Hel Hpre.
  - rewrite app_nil_r. rewrite clean_loop_done by (simpl; lia). by eexists _, _.
  - assert (1 ≤ length seg) by (destruct Hseg as (_ & ? & _); destruct seg; simpl; [done|lia]).
    destruct fuel as [|fuel]; [lia|].
    rewrite clean_loop_step by (rewrite length_app; simpl; lia).
    pose proof (step_element_in_place pre seg [] stack t Hseg ltac:(by left) Hel Hpre)
      as Hstep.
    rewrite app_nil_r in Hstep. rewrite Hstep. cbn [obind].
    rewrite clean_loop_done by (rewrite length_app; simpl; lia). by eexists _, _.
  - assert (1 ≤ length seg) by (destruct Hseg as (_ & ? & _); destruct seg; simpl; [done|lia]).
    rewrite length_app in Hfuel. cbn [length] in Hfuel.
    destruct fuel as [|[|fuel]]; [lia|lia|].
    rewrite clean_loop_step by (rewrite !length_app; simpl; lia).
    rewrite (step_element_in_place pre seg ("/" :: rest) stack t Hseg
               ltac:(right; eauto) Hel Hpre).
    cbn [obind].
    rewrite clean_loop_step by (rewrite !length_app; simpl; lia).
    assert (Hp' : pre ++ seg ++ "/" :: rest = (pre ++ seg) ++ "/" :: rest)
      by by rewrite <-app_assoc.
    rewrite Hp', <-(length_app pre seg), step_slash. cbn [obind].
    assert (Hp'' : (pre ++ seg) ++ "/" :: rest = ((pre ++ seg) ++ ["/"]) ++ rest)
      by by rewrite <-(app_assoc _ ["/"]).
    rewrite Hp''.
    destruct (IH fuel ((pre ++ seg) ++ ["/"]) (seg :: stack) t)
      as (r' & w' & Hloop); [lia|by apply Forall_cons| |].
    { rewrite render_cons, Hpre. by rewrite <-!app_assoc. }
    assert (length (join (seg :: stack)) = length (pre ++ seg)) as Hw.
    { unfold join. rewrite render_cons, Hpre, !length_app. simpl. lia. }
    rewrite Hw, (length_app _ ["/"]) in Hloop. cbn [length] in Hloop.
    rewrite Hloop. by eexists _, _.
Qed.

Lemma clean_rest_render stack :
  Forall element stack →
  ∀ rest, clean_rest rest →
  ∃ rest0, render stack ++ "/" :: rest = "/" :: rest0 ∧ clean_rest rest0.
Proof.
  induction stack as [|seg stack IH]; intros Hel rest Hrest.
  - exists rest. by rewrite render_nil.
  - apply Forall_cons in Hel as [Hseg Hel].
    rewrite render_cons, <-app_assoc. cbn [app].
    apply IH; [done|]. by apply clean_rest_cons.
Qed.

Lemma clean_path_shape p :
  reference_normalize_trailing p = p →
  ∃ rest, p = "/" :: rest ∧ clean_rest rest.
Proof.
  intros Hp. pose proof (kept_elements p) as Hel.
  unfold reference_normalize_trailing in Hp.
  destruct (kept p) as [|seg k].
  { exists []. split; [done|apply clean_rest_nil]. }
  destruct (wants_trailing p).
  - destruct (clean_rest_render (seg :: k) Hel [] clean_rest_nil)
      as (rest0 & Heq & Hc).
    exists rest0. by rewrite <-Hp, <-Heq.
  - apply Forall_cons in Hel as [Hseg Hel].
    destruct (clean_rest_render k Hel seg (clean_rest_last seg Hseg))
      as (rest0 & Heq & Hc).
    exists rest0. by rewrite <-Hp, app_nil_r, render_cons, <-Heq.
Qed.

Lemma CleanPath_return_clean p :
  reference_normalize_trailing p = p →
  CleanPath_return p = Ok (ReturnSlice (length p)).
Proof.
  intros Hp. destruct (clean_path_shape p Hp) as (rest & -> & Hrest).
  set (p := "/" :: rest) in *.
  pose proof (kept_elements p) as Hel.
  assert (wants_trailing p = init_trailing p
          ∧ ∃ r', clean_loop (length p) p (length p)
                    (CpState None 1 1 (init_trailing p))
                  = Ok (CpState None r' (length (join (kept p))) (init_trailing p)))
    as [Hwt [r' Hloop]].
  { destruct (clean_loop_in_place rest Hrest (length p) ["/"] [] (init_trailing p))
      as (r1 & w1 & Hin); [simpl; lia|done|done|].
    destruct (clean_loop_spec 0 (length p) p ["/"] rest [] None)
      as (buf2 & r2 & t2 & Hspec & _ & _ & Ht & _);
      [done|simpl; lia|done|done|simpl; lia|by left|].
    change (["/"] ++ rest) with p in Hin.
    change (length ["/"]) with 1 in Hin, Hspec.
    change (length (join [])) with 1 in Hin, Hspec.
    rewrite Hin in Hspec. injection Hspec as <- <- Hw <-.
    split.
    - unfold wants_trailing. fold (init_trailing p). rewrite Ht at 2.
      unfold p at 2. by rewrite wants_trailing_leading_slash.
    - exists r1. rewrite Hin, Hw. by rewrite <-kept_leading_slash. }
  unfold CleanPath_return. rewrite init_trailing_index. fold p.
  unfold p at 1. rewrite Ascii.eqb_refl. cbn [negb].
  rewrite Hloop. cbn [obind]. rewrite <-Hwt.
  unfold reference_normalize_trailing in Hp.
  destruct (kept p) as [|seg k] eqn:Hk.
  { rewrite andb_false_r. cbn [obind]. by rewrite <-Hp. }
  pose proof (stack_join_length _ _ Hel) as Hlen.
  rewrite bool_decide_true by done. rewrite andb_true_r.
  destruct (wants_trailing p); cbn [obind].
  - unfold bufApp, join. rewrite <-Hp at 1.
    rewrite (index_app_r0 _ _ "/") by done. cbn [obind].
    rewrite Ascii.eqb_refl. cbn [obind]. by rewrite <-Hp, length_app.
  - unfold join. by rewrite <-Hp, app_nil_r.
Qed.

Local Open Scope string_scope.

(** X4: on a path that is clean already, [CleanPath] allocates no
    buffer: it returns the slice [p[:len(p)]] of its argument. *)
Theorem CleanPath_clean_in_place p :
  CleanPath p = Ok p →
  CleanPath_return (list_ascii_of_string p) = Ok (ReturnSlice (String.length p)).
Proof.
  rewrite CleanPath_reference. intros [= Hp]. rewrite <-length_list_ascii.
  apply CleanPath_return_clean. rewrite <-Hp at 2.
  unfold normalize_trailing. by rewrite list_ascii_of_string_of_list_ascii.
Qed.

Lemma CleanPath_clean_in_place_witness :
  CleanPath_return (list_ascii_of_string "/src/filepath/") = Ok (ReturnSlice 14).
Proof. apply (CleanPath_clean_in_place "/src/filepath/"). by vm_compute. Defined.

(** ** [Params.ByName] on joined parameter lists *)

(** X5: on two parameter lists one after the other, [ByName] answers from
    the first list whenever that has the key, and from the second one
    otherwise. *)
Theorem ByName_app (ps qs : Params) (name : string) :
  ByName (ps ++ qs)%list name
  = if existsb (λ p, String.eqb (Key p) name) ps
    then ByName ps name else ByName qs name.
Proof.
  induction ps as [|p ps IH]; [done|]. cbn [app ByName existsb].
  by destruct (String.eqb (Key p) name).
Qed.

(** ** params_go17.go: the parameters travel in the context *)

(** X6: [Handler] and [HandlerFunc] register, as [Handle] does, a handle
    that calls the http handler with a request from whose context
    [ParamsFromContext] gives back exactly the parameters of the route,
    whatever the context held before; the values under other keys, the
    method and the path are those of the incoming request. *)
Theorem Handler_passes_params {A node : Type} (new_node : node)
    (addRoute : node → bytes → (Request → Params → A) → outcome node)
    (r : Router node) (method path : string) (handler : Request → A) :
  ∃ h,
    Handler new_node addRoute r method path handler
    = Handle new_node addRoute r method path h
    ∧ HandlerFunc new_node addRoute r method path handler
      = Handle new_node addRoute r method path h
    ∧ ∀ req p,
        ∃ req', h req p = handler req'
                ∧ ParamsFromContext (req_ctx req') = p
                ∧ (∀ key, key ≠ ParamsKey →
                          ContextValue (req_ctx req') key
                          = ContextValue (req_ctx req) key)
                ∧ req_method req' = req_method req
                ∧ req_path req' = req_path req.
Proof.
  exists (context_handle handler). split; [done|]. split; [done|].
  intros req p. eexists. split; [reflexivity|]. split_and!; try done.
  intros key Hkey. cbn. by rewrite decide_False.
Qed.

(** ** [Router.Handle] and [Router.Lookup] together *)

Lemma Handle_Ok_inv {handle node : Type} (new_node : node)
    (addRoute : node → bytes → handle → outcome node)
    (r r' : Router node) (method path : string) (h : handle) :
  Handle new_node addRoute r method path h = Ok r' →
  begins_with_slash path
  ∧ ∃ root',
      addRoute (default new_node (trees r !! method)) (list_ascii_of_string path) h
      = Ok root'
      ∧ r' = set_tree r method root'.
Proof.
  unfold Handle, index, begins_with_slash. rewrite get_list_ascii.
  destruct (String.get 0 path) as [c|]; cbn [obind]; [|done].
  destruct (Ascii.eqb_spec c "/"%char) as [->|_]; [|done]. cbn [negb].
  destruct (addRoute _ _ h) as [root'| |]; cbn [obind]; try done.
  intros [= <-]. eauto.
Qed.

(** X7: a registration that returns changes no lookup under another
    method, and a lookup under its own method is answered by the root that
    [addRoute] returned. *)
Theorem Lookup_after_Handle {handle node : Type} (new_node : node)
    (addRoute : node → bytes → handle → outcome node)
    (getValue : node → bytes → option handle * Params * bool)
    (r r' : Router node) (method path : string) (h : handle) :
  Handle new_node addRoute r method path h = Ok r' →
  (∀ m q, m ≠ method → Lookup getValue r' m q = Lookup getValue r m q)
  ∧ ∃ root',
      addRoute (default new_node (trees r !! method)) (list_ascii_of_string path) h
      = Ok root'
      ∧ ∀ q, Lookup getValue r' method q = getValue root' (list_ascii_of_string q).
Proof.
  intros (_ & root' & Hadd & ->)%Handle_Ok_inv.
  split.
  - intros m q Hm. unfold Lookup. cbn. by rewrite lookup_insert_ne.
  - exists root'. split; [done|]. intros q. unfold Lookup. cbn.
    by rewrite lookup_insert_eq.
Qed.

Lemma Lookup_after_Handle_witness :
  ∃ r', Handle (handle:=nat) 0 (λ n _ _, Ok (S n)) New "GET" "/a" 7 = Ok r'
        ∧ Lookup (λ n _, (Some n, [], false)) r' "POST" "/a"
          = Lookup (λ n _, (Some n, [], false)) New "POST" "/a".
Proof.
  assert (H : ∃ r', Handle (handle:=nat) 0 (λ n _ _, Ok (S n)) New "GET" "/a" 7 = Ok r')
    by (eexists; reflexivity).
  destruct H as [r' H]. exists r'. split; [exact H|].
  apply (proj1 (Lookup_after_Handle 0 (λ n _ _, Ok (S n)) (λ n _, (Some n, [], false))
                  New r' "GET" "/a" 7 H)).
  discriminate.
Defined.

(** ** [Router.ServeFiles] *)

Lemma substring_all (s : string) : substring 0 (String.length s) s = s.
Proof. induction s as [|c s IH]; simpl; [done|]. by rewrite IH. Qed.

Lemma substring_suffix (pre suf : string) :
  substring (String.length pre) (String.length suf) (pre ++ suf) = suf.
Proof. induction pre as [|c pre IH]; simpl; [apply substring_all|done]. Qed.

Lemma substring_split (s : string) : ∀ k m,
  k + m = String.length s → s = substring 0 k s ++ substring k m s.
Proof.
  induction s as [|c s IH]; intros [|k] m; simpl; intros Hl; try done.
  - by subst m.
  - subst m. simpl. by rewrite substring_all.
  - injection Hl as Hl. by rewrite (IH k m Hl) at 1.
Qed.

Lemma ends_with_filepath (path : string) :
  Nat.ltb (String.length path) 10
  || negb (String.eqb (substring (String.length path - 10) 10 path) "/*filepath")
  = false
  ↔ ∃ pre, path = pre ++ "/*filepath".
Proof.
  rewrite orb_false_iff, Nat.ltb_ge, negb_false_iff, String.eqb_eq. split.
  - intros [Hl Hs]. exists (substring 0 (String.length path - 10) path).
    rewrite <-Hs. apply substring_split. lia.
  - intros [pre ->]. rewrite string_length_app. cbn [String.length]. split; [lia|].
    replace (String.length pre + 10 - 10) with (String.length pre) by lia.
    apply (substring_suffix pre "/*filepath").
Qed.

(** X8: [ServeFiles] takes exactly the paths that end in [/*filepath]:
    for such a path it registers, as [Handle] does for the method GET, a
    handle that replaces the path of the request by the value of the
    parameter [filepath] and calls the file server; for every other path
    it panics with the message that names the path, and nothing is
    registered. *)
Theorem ServeFiles_file_route {A node : Type} (new_node : node)
    (addRoute : node → bytes → (Request → Params → A) → outcome node)
    (r : Router node) (path : string) (fileServer : Request → A) :
  ((∃ pre, path = pre ++ "/*filepath")
   ∧ ∃ h, ServeFiles new_node addRoute r path fileServer
          = Handle new_node addRoute r "GET" path h
        ∧ ∀ req ps,
            h req ps
            = fileServer {| req_method := req_method req;
                            req_path := ByName ps "filepath";
                            req_ctx := req_ctx req |})
  ∨ ((∀ pre, path ≠ pre ++ "/*filepath")
     ∧ ServeFiles new_node addRoute r path fileServer
       = Panic ("path must end with /*filepath in path '" ++ path ++ "'")).
Proof.
  unfold ServeFiles.
  destruct (_ || _) eqn:Hc.
  - right. split; [|done]. intros pre ->.
    assert (true = false) as [=]. rewrite <-Hc. apply ends_with_filepath. eauto.
  - left. split; [by apply ends_with_filepath|].
    exists (file_handle fileServer). done.
Qed.

(** ** [Router.allowed] *)

Lemma concat_snoc (sep : string) (ms : list string) (m : string) :
  ms ≠ [] →
  String.concat sep (ms ++ [m])%list = String.concat sep ms ++ sep ++ m.
Proof.
  induction ms as [|a [|b t] IH]; intros Hne; [done|done|].
  change (String.concat sep ((a :: b :: t) ++ [m])%list)
    with (a ++ sep ++ String.concat sep ((b :: t) ++ [m])%list).
  rewrite IH by done.
  change (String.concat sep (a :: b :: t))
    with (a ++ sep ++ String.concat sep (b :: t)).
  by rewrite !string_app_assoc.
Qed.

Lemma concat_length (sep : string) (ms : list string) :
  ms ≠ [] → EmptyString ∉ ms → (0 < String.length (String.concat sep ms))%nat.
Proof.
  destruct ms as [|a t]; [done|]. intros _ Hin.
  assert (0 < String.length a)%nat as Ha.
  { destruct a; [|simpl; lia]. exfalso. apply Hin. left. }
  destruct t as [|b t]; [done|].
  change (String.concat sep (a :: b :: t))
    with (a ++ sep ++ String.concat sep (b :: t)).
  rewrite string_length_app. lia.
Qed.

Lemma extend_allow_concat (ms : list string) (m : string) :
  EmptyString ∉ ms →
  extend_allow (String.concat ", " ms) m = String.concat ", " (ms ++ [m])%list.
Proof.
  intros Hin. unfold extend_allow. destruct ms as [|a t]; [done|].
  rewrite concat_snoc by done.
  pose proof (concat_length ", " (a :: t) ltac:(done) Hin) as Hl.
  by destruct (Nat.eqb_spec (String.length (String.concat ", " (a :: t))) 0); [lia|].
Qed.

Lemma allow_header_concat (ms : list string) :
  EmptyString ∉ ms →
  (if Nat.ltb 0 (String.length (String.concat ", " ms))
   then String.concat ", " ms ++ ", OPTIONS" else String.concat ", " ms)
  = allow_header ms.
Proof.
  intros Hin. destruct ms as [|a t]; [done|].
  pose proof (concat_length ", " (a :: t) ltac:(done) Hin) as Hl.
  destruct (Nat.ltb_spec 0 (String.length (String.concat ", " (a :: t)))); [|lia].
  unfold allow_header. by rewrite concat_snoc.
Qed.

Section AllowedFacts.
Context {handle node : Type}.
Variable getValue : node → bytes → option handle * Params * bool.

Lemma allowed_scan_listed (r : Router node) (path reqMethod : string) :
  String.eqb path "*" = false →
  ∀ order acc,
    (∀ m, m ∈ order → is_Some (trees r !! m)) →
    EmptyString ∉ order → EmptyString ∉ acc →
    allowed_scan getValue r path reqMethod order (String.concat ", " acc)
    = Ok (String.concat ", "
            (acc ++ List.filter (listed getValue r path reqMethod) order)%list).
Proof.
  intros Hstar. induction order as [|m rest IH]; intros acc Htrees Hne Hacc.
  { cbn. by rewrite app_nil_r. }
  assert (∀ m', m' ∈ rest → is_Some (trees r !! m')) as Hrest
    by (intros m' Hm'; apply Htrees; by right).
  assert (EmptyString ∉ rest) as Hne' by (intros Hin; apply Hne; by right).
  assert (m ≠ EmptyString) as Hm by (intros ->; apply Hne; left).
  cbn [allowed_scan List.filter]. unfold listed at 1, has_handler. rewrite Hstar.
  destruct (Htrees m ltac:(left)) as [root Hroot]. rewrite Hroot.
  destruct (String.eqb m reqMethod), (String.eqb m "OPTIONS"); cbn;
    try by apply IH.
  destruct (getValue root (list_ascii_of_string path)) as [[[h|] ps] tsr];
    [|by apply IH].
  rewrite extend_allow_concat by done. rewrite IH; try done.
  - by rewrite <-(assoc_L (++)%list).
  - intros [Hin | Hin%list_elem_of_singleton]%elem_of_app; [done|congruence].
Qed.

Lemma allowed_star_listed (r : Router node) (path reqMethod : string) :
  String.eqb path "*" = true →
  ∀ order acc,
    EmptyString ∉ order → EmptyString ∉ acc →
    fold_left
      (λ allow method,
         if String.eqb method "OPTIONS" then allow else extend_allow allow method)
      order (String.concat ", " acc)
    = String.concat ", "
        (acc ++ List.filter (listed getValue r path reqMethod) order)%list.
Proof.
  intros Hstar. induction order as [|m rest IH]; intros acc Hne Hacc.
  { cbn. by rewrite app_nil_r. }
  assert (EmptyString ∉ rest) as Hne' by (intros Hin; apply Hne; by right).
  assert (m ≠ EmptyString) as Hm by (intros ->; apply Hne; left).
  cbn [fold_left List.filter]. unfold listed at 1. rewrite Hstar.
  destruct (String.eqb m "OPTIONS"); cbn; [by apply IH|].
  rewrite extend_allow_concat by done. rewrite IH; try done.
  - by rewrite <-(assoc_L (++)%list).
  - intros [Hin | Hin%list_elem_of_singleton]%elem_of_app; [done|congruence].
Qed.

Lemma allowed_listed (order : list string) (r : Router node)
    (path reqMethod : string) :
  (∀ m, m ∈ order → is_Some (trees r !! m)) →
  EmptyString ∉ order →
  allowed getValue order r path reqMethod
  = Ok (allow_header (List.filter (listed getValue r path reqMethod) order)).
Proof.
  intros Htrees Hne. unfold allowed.
  assert (EmptyString ∉ List.filter (listed getValue r path reqMethod) order)
    as Hf by (rewrite list_elem_of_In, filter_In, <-list_elem_of_In; tauto).
  destruct (String.eqb path "*") eqn:Hstar.
  - pose proof (allowed_star_listed r path reqMethod Hstar order [] Hne
                  (not_elem_of_nil _)) as Hs.
    cbn [String.concat app] in Hs. rewrite Hs.
    cbn [obind]. by rewrite allow_header_concat.
  - pose proof (allowed_scan_listed r path reqMethod Hstar order [] Htrees Hne
                  (not_elem_of_nil _)) as Hs.
    cbn [String.concat app] in Hs. rewrite Hs.
    cbn [obind]. by rewrite allow_header_concat.
Qed.
End AllowedFacts.

(** X9: the value that [allowed] computes for the [Allow] header, when
    the methods come up in the order [order], every one of them with its
    tree and none of them the empty string.  For the path [*] these are
    all methods but OPTIONS, the one of the request among them; for
    another path the methods, other than OPTIONS and the one of the
    request, whose tree has a handler for the path.  They are joined by a
    comma and a space in the order of the iteration, and OPTIONS is put
    at the end unless the list is empty, in which case the value is the
    empty string. *)
Theorem allowed_lists_methods {handle node : Type}
    (getValue : node → bytes → option handle * Params * bool)
    (order : list string) (r : Router node) (path reqMethod : string) :
  (∀ m, m ∈ order → is_Some (trees r !! m)) →
  EmptyString ∉ order →
  allowed getValue order r path reqMethod
  = Ok (match List.filter
                (λ m, negb (String.eqb m "OPTIONS")
                      && (String.eqb path "*"
                          || negb (String.eqb m reqMethod)
                             && has_handler getValue r path m))
                order with
        | [] => EmptyString
        | ms => String.concat ", " (ms ++ ["OPTIONS"])
        end).
Proof.
  intros Htrees Hne. rewrite allowed_listed by done.
  unfold allow_header. f_equal.
  change (λ m, negb (String.eqb m "OPTIONS")
               && (String.eqb path "*"
                   || negb (String.eqb m reqMethod)
                      && has_handler getValue r path m))
    with (listed getValue r path reqMethod).
  by destruct (List.filter _ order).
Qed.

Lemma allowed_lists_methods_witness :
  allowed (handle:=nat) (node:=nat)
    (λ root _, (if Nat.eqb root 1 then Some 7 else None, [], false))
    ["POST"; "GET"; "OPTIONS"; "DELETE"]
    (set_tree (set_tree (set_tree (set_tree New "GET" 1) "POST" 0) "OPTIONS" 1)
       "DELETE" 1)
    "/a" "PUT"
  = Ok "GET, DELETE, OPTIONS".
Proof.
  apply (allowed_lists_methods
           (λ root _, (if Nat.eqb root 1 then Some 7 else None, [], false))
           ["POST"; "GET"; "OPTIONS"; "DELETE"]
           (set_tree (set_tree (set_tree (set_tree New "GET" 1) "POST" 0)
                        "OPTIONS" 1) "DELETE" 1)
           "/a" "PUT").
  - intros m Hm. repeat (apply elem_of_cons in Hm as [-> | Hm]);
      [by vm_compute; eexists ..|by apply elem_of_nil in Hm].
  - intros Hin. repeat (apply elem_of_cons in Hin as [[=] | Hin]).
    by apply elem_of_nil in Hin.
Defined.

(** ** [Router.ServeHTTP] *)

Lemma get_substring (s : string) : ∀ n c,
  String.get n s = Some c → substring n 1 s = String c EmptyString.
Proof.
  induction s as [|a s IH]; intros [|n] c; simpl; try done.
  - intros [= ->]. by destruct s.
  - apply IH.
Qed.

Lemma toggle_slash_cases (path : string) :
  toggle_slash path = path ++ "/"
  ∨ (1 < String.length path)%nat ∧ path = toggle_slash path ++ "/".
Proof.
  unfold toggle_slash.
  destruct (Nat.ltb_spec 1 (String.length path)) as [Hl|Hl]; cbn [andb]; [|by left].
  case_bool_decide as Hget; [|by left]. right. split; [done|].
  rewrite <-(get_substring _ _ _ Hget). apply substring_split. lia.
Qed.

Section ServeFacts.
Context {handle node : Type}.
Variable getValue : node → bytes → option handle * Params * bool.
Variable findCaseInsensitivePath : node → bytes → bool → bytes * bool.

Lemma serve_tree_total (r : Router node) (method path : string) :
  ∃ first, serve_tree getValue findCaseInsensitivePath r method path = Ok first.
Proof.
  unfold serve_tree. destruct (trees r !! method) as [root|]; [|by eexists].
  destruct (getValue root _) as [[[h|] ps] tsr]; [by eexists|].
  destruct (_ && _); [|by eexists].
  destruct (_ && _); [by eexists|].
  destruct (RedirectFixedPath r); [|by eexists].
  rewrite CleanPath_reference. cbn [obind].
  destruct (findCaseInsensitivePath _ _ _) as [fixedPath []]; by eexists.
Qed.

Lemma serve_tree_served (r : Router node) (method path : string) h ps :
  serve_tree getValue findCaseInsensitivePath r method path = Ok (Some (Served h ps))
  ↔ ∃ tsr, Lookup getValue r method path = (Some h, ps, tsr).
Proof.
  unfold serve_tree, Lookup. destruct (trees r !! method) as [root|].
  2: { split; [done|]. by intros [tsr [=]]. }
  destruct (getValue root _) as [[[h'|] ps'] tsr].
  { split; [intros [= -> ->]; by exists tsr|]. by intros [tsr' [= -> -> _]]. }
  split; [|by intros [tsr' [=]]].
  destruct (_ && _); [|done].
  destruct (_ && _); [done|].
  destruct (RedirectFixedPath r); [|done].
  rewrite CleanPath_reference. cbn [obind].
  by destruct (findCaseInsensitivePath _ _ _) as [fixedPath []].
Qed.

Lemma serve_tree_redirected (r : Router node) (method path target : string) code :
  serve_tree getValue findCaseInsensitivePath r method path
  = Ok (Some (Redirected target code)) →
  method ≠ "CONNECT" ∧ path ≠ "/"
  ∧ code = (if String.eqb method "GET" then 301 else 307)
  ∧ ∃ root ps tsr,
      trees r !! method = Some root
      ∧ getValue root (list_ascii_of_string path) = (None, ps, tsr)
      ∧ (tsr = true ∧ RedirectTrailingSlash r = true ∧ target = toggle_slash path
         ∨ (tsr = false ∨ RedirectTrailingSlash r = false)
           ∧ RedirectFixedPath r = true
           ∧ findCaseInsensitivePath root
               (list_ascii_of_string (normalize_trailing path))
               (RedirectTrailingSlash r)
             = (list_ascii_of_string target, true)).
Proof.
  unfold serve_tree. destruct (trees r !! method) as [root|]; [|done].
  destruct (getValue root _) as [[[h'|] ps'] tsr] eqn:Hget; [done|].
  destruct (String.eqb_spec method "CONNECT") as [|Hm]; [done|].
  destruct (String.eqb_spec path "/") as [|Hp]; [done|]. cbn [negb andb].
  assert ((if negb (String.eqb method "GET") then 307 else 301)
          = (if String.eqb method "GET" then 301 else 307)) as ->
    by by destruct (String.eqb method "GET").
  destruct (tsr && RedirectTrailingSlash r) eqn:Hts.
  { apply andb_true_iff in Hts as [-> Hts]. intros [= <- <-].
    split_and!; try done. exists root, ps', true. split_and!; try done. by left. }
  apply andb_false_iff in Hts.
  destruct (RedirectFixedPath r) eqn:Hfix; [|done].
  rewrite CleanPath_reference. cbn [obind].
  destruct (findCaseInsensitivePath _ _ _) as [fixedPath []] eqn:Hfci; [|done].
  intros [= <- <-]. split_and!; try done. exists root, ps', tsr.
  split_and!; try done. right. rewrite list_ascii_of_string_of_list_ascii.
  by split_and!.
Qed.

Lemma ServeHTTP_unfold (order : list string) (r : Router node) (method path : string) :
  (∃ resp, serve_tree getValue findCaseInsensitivePath r method path = Ok (Some resp)
           ∧ ServeHTTP getValue findCaseInsensitivePath order r method path = Ok resp)
  ∨ serve_tree getValue findCaseInsensitivePath r method path = Ok None
    ∧ ServeHTTP getValue findCaseInsensitivePath order r method path
      = if String.eqb method "OPTIONS" && HandleOPTIONS r then
          do allow <- allowed getValue order r path method;
          if Nat.ltb 0 (String.length allow) then Ok (AllowHeader allow) else Ok NotFound
        else if HandleMethodNotAllowed r then
          do allow <- allowed getValue order r path method;
          if Nat.ltb 0 (String.length allow) then Ok (NotAllowed allow) else Ok NotFound
        else Ok NotFound.
Proof.
  unfold ServeHTTP.
  destruct (serve_tree_total r method path) as [[resp|] ->]; cbn [obind].
  - left. by exists resp.
  - by right.
Qed.


End ServeFacts.

Lemma toggle_slash_spec (path : string) :
  path ≠ "/" →
  ends_in path "/" ∧ path = toggle_slash path ++ "/"
  ∨ ¬ ends_in path "/" ∧ toggle_slash path = path ++ "/".
Proof.
  intros Hp. unfold ends_in.
  rewrite last_lookup, get_list_ascii, length_list_ascii, <-Nat.sub_1_r.
  unfold toggle_slash.
  destruct (Nat.ltb_spec 1 (String.length path)) as [Hl|Hl]; cbn [andb].
  - case_bool_decide as Hget; [left|by right]. split; [done|].
    rewrite <-(get_substring _ _ _ Hget). apply substring_split. lia.
  - right. split; [|done]. destruct path as [|c [|c' path]]; [done| |simpl in Hl; lia].
    intros [= ->]. done.
Qed.

(** X10: [ServeHTTP] runs a handle exactly when [Lookup] finds one for
    the method and the path of the request, and it runs that handle with
    the parameters that [Lookup] returns; neither the redirect and
    method options nor the order of the methods have a part in it. *)
Theorem ServeHTTP_serves_lookup {handle node : Type}
    (getValue : node → bytes → option handle * Params * bool)
    (findCaseInsensitivePath : node → bytes → bool → bytes * bool)
    (order : list string) (r : Router node) (method path : string)
    (h : handle) (ps : Params) :
  ServeHTTP getValue findCaseInsensitivePath order r method path = Ok (Served h ps)
  ↔ ∃ tsr, Lookup getValue r method path = (Some h, ps, tsr).
Proof.
  rewrite <-(serve_tree_served getValue findCaseInsensitivePath).
  destruct (ServeHTTP_unfold getValue findCaseInsensitivePath order r method path)
    as [(resp & Hs & ->) | [Hs ->]]; rewrite Hs.
  - split; by intros [= ->].
  - split; [|done].
    destruct (_ && _); [|destruct (HandleMethodNotAllowed r); [|done]];
      destruct (allowed _ _ _ _ _) as [allow| |]; cbn [obind]; try done;
      by destruct (Nat.ltb _ _).
Qed.

(** X11: [ServeHTTP] redirects only a request whose method has a tree
    without a handler for the path, never one with the method CONNECT or
    the path [/]; the status is 301 for GET and 307 for every other
    method.  The new path is either the path of the request without its
    final slash, or with a slash added when it has none (when the tree
    recommends it and [RedirectTrailingSlash] is set), or what the
    case-insensitive lookup finds for the cleaned path (when
    [RedirectFixedPath] is set and the first redirect does not apply). *)
Theorem ServeHTTP_redirect {handle node : Type}
    (getValue : node → bytes → option handle * Params * bool)
    (findCaseInsensitivePath : node → bytes → bool → bytes * bool)
    (order : list string) (r : Router node) (method path target : string)
    (code : nat) :
  ServeHTTP (handle:=handle) getValue findCaseInsensitivePath order r method path
  = Ok (Redirected target code) →
  method ≠ "CONNECT" ∧ path ≠ "/"
  ∧ code = (if String.eqb method "GET" then 301 else 307)
  ∧ ∃ root ps tsr,
      trees r !! method = Some root
      ∧ getValue root (list_ascii_of_string path) = (None, ps, tsr)
      ∧ (tsr = true ∧ RedirectTrailingSlash r = true
         ∧ (ends_in path "/" ∧ path = target ++ "/"
            ∨ ¬ ends_in path "/" ∧ target = path ++ "/")
         ∨ (tsr = false ∨ RedirectTrailingSlash r = false)
           ∧ RedirectFixedPath r = true
           ∧ ∃ cleaned,
               CleanPath path = Ok cleaned
               ∧ findCaseInsensitivePath root (list_ascii_of_string cleaned)
                   (RedirectTrailingSlash r)
                 = (list_ascii_of_string target, true)).
Proof.
  destruct (ServeHTTP_unfold getValue findCaseInsensitivePath order r method path)
    as [(resp & Hs & ->) | [Hs ->]].
  - intros [= ->]. apply serve_tree_redirected in Hs
      as (Hm & Hp & Hcode & root & ps & tsr & Hroot & Hget & Hcase).
    split_and!; try done. exists root, ps, tsr. split_and!; try done.
    destruct Hcase as [(-> & Hts & ->) | (Hno & Hfix & Hfci)]; [left|right].
    + split_and!; try done. by apply toggle_slash_spec.
    + split_and!; try done. exists (normalize_trailing path).
      split; [apply CleanPath_reference|done].
  - destruct (_ && _); [|destruct (HandleMethodNotAllowed r); [|done]];
      destruct (allowed _ _ _ _ _) as [allow| |]; cbn [obind]; try done;
      by destruct (Nat.ltb _ _).
Qed.

Lemma ServeHTTP_redirect_witness :
  ServeHTTP example_getValue example_find ["GET"; "POST"; "PUT"] example_router
    "PUT" "/a/"
  = Ok (Redirected "/a" 307)
  ∧ ∃ root ps tsr,
      trees example_router !! "PUT" = Some root
      ∧ example_getValue root (list_ascii_of_string "/a/") = (None, ps, tsr).
Proof.
  split; [by vm_compute|].
  destruct (ServeHTTP_redirect example_getValue example_find ["GET"; "POST"; "PUT"]
              example_router "PUT" "/a/" "/a" 307 ltac:(by vm_compute))
    as (_ & _ & _ & root & ps & tsr & Hroot & Hget & _).
  by exists root, ps, tsr.
Defined.





Lemma allowed_returns {handle node : Type}
    (getValue : node → bytes → option handle * Params * bool)
    (order : list string) (r : Router node) (path reqMethod : string) :
  (∀ m, m ∈ order → is_Some (trees r !! m)) →
  ∃ allow, allowed getValue order r path reqMethod = Ok allow.
Proof.
  intros Htrees. unfold allowed.
  destruct (String.eqb path "*"); cbn [obind]; [by eexists|].
  assert (∀ acc, ∃ allow,
            allowed_scan getValue r path reqMethod order acc = Ok allow) as Hscan.
  { induction order as [|m rest IH]; intros acc; cbn [allowed_scan]; [by eexists|].
    assert (∀ m', m' ∈ rest → is_Some (trees r !! m')) as Hrest
      by (intros m' Hm'; apply Htrees; by right).
    destruct (Htrees m ltac:(left)) as [root ->].
    destruct (_ || _); [by apply IH|].
    destruct (getValue root _) as [[[h|] ps] tsr]; by apply IH. }
  destruct (Hscan EmptyString) as [allow ->]. by eexists.
Qed.

(** X14: [ServeHTTP] comes to a decision on every request, for every
    setting of the four options: cleaning the path for the fixed-path
    redirect does not fail on any path, and [allowed] finds the tree of
    every method that the iteration over the trees gives it. *)
Theorem ServeHTTP_returns {handle node : Type}
    (getValue : node → bytes → option handle * Params * bool)
    (findCaseInsensitivePath : node → bytes → bool → bytes * bool)
    (order : list string) (r : Router node) (method path : string) :
  (∀ m, m ∈ order → is_Some (trees r !! m)) →
  ∃ resp : response handle,
    ServeHTTP getValue findCaseInsensitivePath order r method path = Ok resp.
Proof.
  intros Htrees.
  destruct (ServeHTTP_unfold getValue findCaseInsensitivePath order r method path)
    as [(resp & Hs & ->) | [Hs ->]]; [by eexists|].
  destruct (allowed_returns getValue order r path method Htrees) as [allow Ha].
  destruct (_ && _); [|destruct (HandleMethodNotAllowed r); [|by eexists]];
    rewrite Ha; cbn [obind]; destruct (Nat.ltb _ _); by eexists.
Qed.

Lemma ServeHTTP_returns_witness :
  ∃ resp,
    ServeHTTP example_getValue example_find ["GET"; "POST"; "PUT"] example_router
      "DELETE" "/a/../b" = Ok resp.
Proof.
  apply (ServeHTTP_returns example_getValue example_find ["GET"; "POST"; "PUT"]
           example_router "DELETE" "/a/../b").
  methods_have_trees.
Defined.
